(** * convert_ruby.py: the Ruby-to-C# transpiler pipeline

    A shallow embedding of [src/convert_ruby.py]: the lexer
    [tokenize_ruby_code], the stack-based block parser [parse_tokens] and
    the renderer [transpile_to_csharp], followed by the properties that the
    specification states about them.

    The three stages are modelled as functions on values; the limits of the
    interpreter (recursion depth, memory) and the two file operations
    around the pipeline are outside the model. *)

From Stdlib Require Import String Ascii.
From Stdlib Require Import List NArith Bool Lia Arith.
Import ListNotations.

Local Open Scope N_scope.
Local Open Scope list_scope.

(** ** Strings

    A Python [str] is a sequence of Unicode code points.  A code point is
    an [N]; a string is a list of code points, so that [+] on strings is
    [++] and [==] is equality of lists. *)

Definition char := N.
Definition str := list char.

(** [py "..."] is the Python literal with the same (ASCII) characters. *)
Definition py (s : string) : str := map N_of_ascii (list_ascii_of_string s).

(** The newline character, written [\n] in the source. *)
Definition nl : str := [10].

Definition str_eqb (a b : str) : bool :=
  if list_eq_dec N.eq_dec a b then true else false.

(** ** Exceptions

    The two exceptions the pipeline can raise on its own data: [list.pop]
    on an empty list and [list[0]] on an empty list raise [IndexError];
    subscripting a dict with a key it does not hold raises [KeyError]. *)

Inductive exn := IndexError | KeyError.

Inductive result (A : Type) : Type :=
| Ok (a : A)
| Raise (e : exn).
Arguments Ok {A} a.
Arguments Raise {A} e.

Definition bind {A B} (m : result A) (k : A -> result B) : result B :=
  match m with
  | Ok a => k a
  | Raise e => Raise e
  end.

Notation "x <- m ;; k" := (bind m (fun x => k))
  (at level 61, m at next level, right associativity).

(** ** Lexer: [tokenize_ruby_code]

    [re.findall(r"[A-Za-z_][A-Za-z0-9_]*|\S", code)] *)

Module Lexer.

(** [\s] on a [str] pattern: the Unicode whitespace characters. *)
Definition is_space (c : char) : bool :=
  ((9 <=? c) && (c <=? 13)) || ((28 <=? c) && (c <=? 32))
  || (c =? 133) || (c =? 160) || (c =? 5760)
  || ((8192 <=? c) && (c <=? 8202))
  || (c =? 8232) || (c =? 8233) || (c =? 8239) || (c =? 8287)
  || (c =? 12288).

(** [[A-Za-z_]] *)
Definition ident_start (c : char) : bool :=
  ((65 <=? c) && (c <=? 90)) || ((97 <=? c) && (c <=? 122)) || (c =? 95).

(** [[A-Za-z0-9_]] *)
Definition ident_char (c : char) : bool :=
  ident_start c || ((48 <=? c) && (c <=? 57)).

(** The greedy star [p*]: the longest prefix whose characters satisfy [p]. *)
Fixpoint star (p : char -> bool) (s : str) : str :=
  match s with
  | c :: rest => if p c then c :: star p rest else []
  | [] => []
  end.

(** One attempt of the pattern at the head of [s]: the first alternative
    [[A-Za-z_][A-Za-z0-9_]*] is tried first, then [\S]; [None] when neither
    matches.  Nothing follows either alternative, so the greedy star never
    gives a character back. *)
Definition match_here (s : str) : option str :=
  match s with
  | [] => None
  | c :: rest =>
      if ident_start c then Some (c :: star ident_char rest)
      else if negb (is_space c) then Some [c]
      else None
  end.

(** [findall]: scan left to right; at each position try the pattern, emit
    the match and resume right after it, or step one character forward when
    there is none.  [skip] counts the characters of the last match that are
    still to be stepped over. *)
Fixpoint findall (skip : nat) (s : str) : list str :=
  match s with
  | [] => []
  | _ :: rest =>
      match skip with
      | S k => findall k rest
      | O =>
          match match_here s with
          | Some tok => tok :: findall (length tok - 1) rest
          | None => findall 0 rest
          end
      end
  end.

Definition tokenize_ruby_code (code : str) : list str := findall 0 code.

End Lexer.

(** ** Nodes

    The parser builds dicts of two shapes: [{"type": kw, "body": [...]}]
    for a block, where [kw] is one of the seven block keywords, and
    [{"type": "code", "value": token}] for a fragment. *)

#[local] Set Warnings "-register-all".

Inductive block_kind := Class | Def | If | While | Else | Elsif | Do.

Inductive node :=
| Block (type : block_kind) (body : list node)
| Code (value : str).

(** Induction on a node with the hypothesis for every node of its body. *)
Fixpoint node_nested_ind (P : node -> Prop)
  (HBlock : forall type body, Forall P body -> P (Block type body))
  (HCode : forall value, P (Code value)) (n : node) : P n :=
  match n with
  | Block type body =>
      HBlock type body
        ((fix all (l : list node) : Forall P l :=
            match l with
            | [] => Forall_nil P
            | child :: rest =>
                Forall_cons child (node_nested_ind P HBlock HCode child) (all rest)
            end) body)
  | Code value => HCode value
  end.

(** ** Parser: [parse_tokens] *)

Module Parser.

(** [token in ("class", "def", "if", "while", "else", "elsif", "do")],
    with the keyword that matched. *)
Definition block_keywords : list (str * block_kind) :=
  [ (py "class", Class); (py "def", Def); (py "if", If);
    (py "while", While); (py "else", Else); (py "elsif", Elsif);
    (py "do", Do) ].

Fixpoint keyword_in (token : str) (kws : list (str * block_kind))
  : option block_kind :=
  match kws with
  | [] => None
  | (kw, k) :: rest => if str_eqb token kw then Some k else keyword_in token rest
  end.

Definition block_keyword (token : str) : option block_kind :=
  keyword_in token block_keywords.

(** The stack holds block dicts only; an entry is the pair of its two
    fields.  The head of the list is the top of the stack, Python's
    [stack[-1]].  A dict is referenced from one place at a time: it is on
    the stack while it is appended to, and it is put in a body or in [ast]
    when it is popped, after which nothing changes it; so the dicts are
    passed as values. *)
Definition open_block : Type := block_kind * list node.

Definition close (b : open_block) : node := Block (fst b) (snd b).

(** [stack[-1]["body"].append(child)] on a non-empty stack. *)
Definition append_to_top (child : node) (top : open_block)
  (below : list open_block) : list open_block :=
  (fst top, snd top ++ [child]) :: below.

Record state := mk_state { stack : list open_block; ast : list node }.

(** One iteration of the [for token in tokens] loop. *)
Definition parse_token (token : str) (st : state) : result state :=
  match block_keyword token with
  | Some k => Ok (mk_state ((k, []) :: stack st) (ast st))
  | None =>
      if str_eqb token (py "end") then
        match stack st with
        | [] => Raise IndexError
        | top :: below =>
            let node := close top in
            match below with
            | parent :: rest => Ok (mk_state (append_to_top node parent rest) (ast st))
            | [] => Ok (mk_state [] (ast st ++ [node]))
            end
        end
      else
        match stack st with
        | top :: below =>
            Ok (mk_state (append_to_top (Code token) top below) (ast st))
        | [] => Ok (mk_state [] (ast st ++ [Code token]))
        end
  end.

Fixpoint parse_loop (tokens : list str) (st : state) : result state :=
  match tokens with
  | [] => Ok st
  | token :: rest => st' <- parse_token token st ;; parse_loop rest st'
  end.

Definition initial : state := mk_state [] [].

Definition parse_tokens (tokens : list str) : result (list node) :=
  st <- parse_loop tokens initial ;; Ok (ast st).

End Parser.

(** ** Renderer: [transpile_to_csharp] *)

Module Renderer.

Definition RUBY_TO_CSHARP_KEYWORDS : list (str * str) :=
  [ (py "def", py "public void");
    (py "class", py "public class");
    (py "end", py "}");
    (py "if", py "if");
    (py "elsif", py "else if");
    (py "else", py "else");
    (py "while", py "while");
    (py "do", py "{");
    (py "true", py "true");
    (py "false", py "false");
    (py "nil", py "null") ].

(** [d[key]] *)
Fixpoint getitem (d : list (str * str)) (key : str) : result str :=
  match d with
  | [] => Raise KeyError
  | (k, v) :: rest => if str_eqb key k then Ok v else getitem rest key
  end.

(** [node["value"]]: only a fragment dict has the key. *)
Definition value_of (n : node) : result str :=
  match n with
  | Code value => Ok value
  | Block _ _ => Raise KeyError
  end.

(** [for child in children: transpile_node(child)], threading the
    accumulated [csharp_code]. *)
Definition for_each (transpile_node : node -> str -> result str)
  : list node -> str -> result str :=
  fix each (children : list node) (csharp_code : str) : result str :=
    match children with
    | [] => Ok csharp_code
    | child :: rest =>
        csharp_code <- transpile_node child csharp_code ;;
        each rest csharp_code
    end.

(** The closure [transpile_node]; the [nonlocal csharp_code] it appends to
    is passed in and returned.  [body[0]] raises [IndexError] on an empty
    body, and [body[1:]] is the rest of the list.

    The closure calls itself once for each level of nesting, and the
    interpreter raises [RecursionError] beyond its recursion limit, on a
    nest about a thousand blocks deep.  That limit is not modelled: the
    properties below say what the renderer returns when it returns, and
    when it raises one of its own two exceptions; none of them says that a
    Forest of arbitrary depth renders without error. *)
Fixpoint transpile_node (n : node) (csharp_code : str) : result str :=
  match n with
  | Block Class body =>
      kw <- getitem RUBY_TO_CSHARP_KEYWORDS (py "class") ;;
      match body with
      | [] => Raise IndexError
      | first :: rest =>
          name <- value_of first ;;
          let csharp_code := csharp_code ++ kw ++ py " " ++ name ++ py " {" ++ nl in
          csharp_code <- for_each transpile_node rest csharp_code ;;
          Ok (csharp_code ++ py "}" ++ nl)
      end
  | Block Def body =>
      match body with
      | [] => Raise IndexError
      | first :: rest =>
          method_name <- value_of first ;;
          kw <- getitem RUBY_TO_CSHARP_KEYWORDS (py "def") ;;
          let csharp_code :=
            csharp_code ++ py "    " ++ kw ++ py " " ++ method_name ++ py "() {" ++ nl in
          csharp_code <- for_each transpile_node rest csharp_code ;;
          Ok (csharp_code ++ py "    }" ++ nl)
      end
  | Block If body =>
      kw <- getitem RUBY_TO_CSHARP_KEYWORDS (py "if") ;;
      let csharp_code := csharp_code ++ py "    " ++ kw ++ py " (" in
      match body with
      | [] => Raise IndexError
      | first :: rest =>
          condition <- value_of first ;;
          let csharp_code := csharp_code ++ condition ++ py ") {" ++ nl in
          csharp_code <- for_each transpile_node rest csharp_code ;;
          Ok (csharp_code ++ py "    }" ++ nl)
      end
  | Block While body =>
      kw <- getitem RUBY_TO_CSHARP_KEYWORDS (py "while") ;;
      let csharp_code := csharp_code ++ py "    " ++ kw ++ py " (" in
      match body with
      | [] => Raise IndexError
      | first :: rest =>
          condition <- value_of first ;;
          let csharp_code := csharp_code ++ condition ++ py ") {" ++ nl in
          csharp_code <- for_each transpile_node rest csharp_code ;;
          Ok (csharp_code ++ py "    }" ++ nl)
      end
  | Block _ _ => Ok csharp_code
  | Code value => Ok (csharp_code ++ py "    " ++ value ++ nl)
  end.

Definition transpile_to_csharp (ast : list node) : result str :=
  for_each transpile_node ast [].

End Renderer.

(** ** The pipeline of [transpile_ruby_to_csharp], between the two file
    operations. *)

Definition transpile (ruby_code : str) : result str :=
  let tokens := Lexer.tokenize_ruby_code ruby_code in
  ast <- Parser.parse_tokens tokens ;;
  Renderer.transpile_to_csharp ast.

(** * Vocabulary of the specification *)

(** ** Lexer *)

(** The input with its whitespace removed. *)
Definition remove_whitespace (code : str) : str :=
  filter (fun c => negb (Lexer.is_space c)) code.

(** The character after a greedy run, if any, does not continue it. *)
Definition stops (p : char -> bool) (s : str) : Prop :=
  match s with
  | [] => True
  | d :: _ => p d = false
  end.

(** A left-to-right scan of the input into tokens.  Whitespace separates;
    a token is either a run that begins with a character satisfying
    [start], continues with characters of the alphabet [[A-Za-z0-9_]] and
    is maximal, or one single character that is neither whitespace nor
    allowed to begin a run. *)
Inductive scans (start : char -> bool) : str -> list str -> Prop :=
| scans_end : scans start [] []
| scans_space c s toks :
    Lexer.is_space c = true ->
    scans start s toks ->
    scans start (c :: s) toks
| scans_run c run s toks :
    start c = true ->
    Forall (fun d => Lexer.ident_char d = true) run ->
    stops Lexer.ident_char s ->
    scans start s toks ->
    scans start (c :: run ++ s) ((c :: run) :: toks)
| scans_single c s toks :
    Lexer.is_space c = false ->
    start c = false ->
    scans start s toks ->
    scans start (c :: s) ([c] :: toks).

(** The scan as the specification words it: a run is one or more characters
    of the alphabet {letters, digits, underscore}. *)
Definition scans_as_specified := scans Lexer.ident_char.

(** The scan of the pattern: a run is an identifier, which begins with a
    letter or an underscore. *)
Definition scans_identifiers := scans Lexer.ident_start.

Definition no_whitespace (tok : str) : Prop :=
  Forall (fun c => Lexer.is_space c = false) tok.

(** ** Parser *)

Definition tok_end : str := py "end".

(** The number of open blocks after [tokens], starting from [depth] open
    blocks; [None] when some [end] comes with no block open. *)
Fixpoint depth_after (depth : nat) (tokens : list str) : option nat :=
  match tokens with
  | [] => Some depth
  | token :: rest =>
      match Parser.block_keyword token with
      | Some _ => depth_after (S depth) rest
      | None =>
          if str_eqb token tok_end then
            match depth with
            | O => None
            | S d => depth_after d rest
            end
          else depth_after depth rest
      end
  end.

(** Every [end] closes a block opened before it, and every block is
    closed. *)
Definition well_balanced (tokens : list str) : bool :=
  match depth_after 0 tokens with
  | Some O => true
  | _ => false
  end.

(** Some [end] has no matching open block. *)
Definition unmatched_end (tokens : list str) : bool :=
  match depth_after 0 tokens with
  | None => true
  | Some _ => false
  end.

(** Some [end] token is met while the parser's stack is empty. *)
Definition end_on_empty_stack (tokens : list str) : Prop :=
  exists pre post st,
    tokens = pre ++ tok_end :: post /\
    Parser.parse_loop pre Parser.initial = Ok st /\
    Parser.stack st = [].

(** ** Renderer *)

(** The block kinds that [transpile_node] has a branch for. *)
Definition rendered (k : block_kind) : bool :=
  match k with
  | Class | Def | If | While => true
  | Else | Elsif | Do => false
  end.

(** The opening line of a rendered block, with the text taken from the
    first element of its body, and its closing line. *)
Definition header_line (k : block_kind) (name : str) : str :=
  match k with
  | Class => py "public class " ++ name ++ py " {"
  | Def => py "    public void " ++ name ++ py "() {"
  | If => py "    if (" ++ name ++ py ") {"
  | While => py "    while (" ++ name ++ py ") {"
  | Else | Elsif | Do => []
  end.

Definition footer_line (k : block_kind) : str :=
  match k with
  | Class => py "}"
  | Def | If | While => py "    }"
  | Else | Elsif | Do => []
  end.

Definition header (k : block_kind) (name : str) : str := header_line k name ++ nl.
Definition footer (k : block_kind) : str := footer_line k ++ nl.

(** Every class, def, if and while node of the tree, at any depth, has a
    non-empty body. *)
Fixpoint bodies_nonempty (n : node) : bool :=
  match n with
  | Code _ => true
  | Block k body =>
      (if rendered k then match body with [] => false | _ => true end else true)
      && forallb bodies_nonempty body
  end.

(** Every class, def, if and while node that the renderer reaches (one that
    is not inside an else, elsif or do node) has a body that begins with a
    fragment. *)
Fixpoint renderable (n : node) : bool :=
  match n with
  | Code _ => true
  | Block k body =>
      if rendered k then
        match body with
        | Code _ :: rest => forallb renderable rest
        | _ => false
        end
      else true
  end.

(** *** Lines and indentation *)

(** The lines of a text, each ended by a newline. *)
Fixpoint lines (text : str) : list str :=
  match text with
  | [] => []
  | c :: rest =>
      if c =? 10 then [] :: lines rest
      else
        match lines rest with
        | [] => [[c]]
        | l :: ls => (c :: l) :: ls
        end
  end.

Definition unlines (ls : list str) : str :=
  concat (map (fun l => l ++ nl) ls).

Definition one_line (l : str) : bool := forallb (fun c => negb (c =? 10)) l.

(** The number of spaces a line begins with. *)
Fixpoint indent (line : str) : nat :=
  match line with
  | c :: rest => if c =? 32 then S (indent rest) else O
  | [] => O
  end.

(** The lines between the first and the last line of a text: for the text
    of a rendered block, the lines of the nodes nested in it. *)
Definition body_lines (out : str) : list str := removelast (tl (lines out)).

(** The lines that the nodes nested in [n] contribute all begin with
    exactly [width] spaces. *)
Definition nested_lines_indented (width : nat) (n : node) : Prop :=
  forall out,
    Renderer.transpile_node n [] = Ok out ->
    Forall (fun l => indent l = width) (body_lines out).

(** The node that emits each line of the output, in the order of the
    output: a class, def, if or while block emits its opening line, then
    come the lines of the elements of its body after the first, then its
    closing line; a fragment emits one line; an else, elsif or do block
    emits none.  [Some k] stands for a block of kind [k], [None] for a
    fragment. *)
Fixpoint line_origins (n : node) : list (option block_kind) :=
  match n with
  | Code _ => [None]
  | Block k body =>
      if rendered k then
        match body with
        | [] => []
        | _ :: rest => Some k :: flat_map line_origins rest ++ [Some k]
        end
      else []
  end.

(** The indentation of a line by the node that emits it: none for the two
    lines of a class block, four spaces for every other line. *)
Definition origin_indent (o : option block_kind) : nat :=
  match o with
  | Some Class => 0
  | _ => 4
  end.

(** The lines [ls] are as many as the origins [os], and each begins with
    exactly the number of spaces of its origin. *)
Definition indented_by_origin (os : list (option block_kind))
  (ls : list str) : Prop :=
  Forall2 (fun o l => indent l = origin_indent o) os ls.

(** A fragment value as the lexer makes it: not empty, no whitespace. *)
Definition is_token (v : str) : bool :=
  match v with
  | [] => false
  | _ => forallb (fun c => negb (Lexer.is_space c)) v
  end.

Fixpoint tokens_only (n : node) : bool :=
  match n with
  | Code value => is_token value
  | Block _ body => forallb tokens_only body
  end.

(** A text made of whole lines, one for each origin and indented as its
    origin says. *)
Definition emits (os : list (option block_kind)) (text : str) : Prop :=
  exists ls,
    text = unlines ls /\ Forall (fun l => one_line l = true) ls /\
    indented_by_origin os ls.

(** Every fragment held by the parser, in open blocks and in the Forest, is
    a token. *)
Definition state_tokens (st : Parser.state) : bool :=
  forallb (fun b : Parser.open_block => forallb tokens_only (snd b)) (Parser.stack st)
  && forallb tokens_only (Parser.ast st).

(** The input of the end-to-end example: five lines, no newline after the
    last. *)
Definition greeter_source : str :=
  py "class Greeter" ++ nl ++ py "def hello" ++ nl ++ py "puts" ++ nl
  ++ py "end" ++ nl ++ py "end".

Definition greeter_forest : list node :=
  [Block Class [Code (py "Greeter");
                Block Def [Code (py "hello"); Code (py "puts")]]].

(** A rendering step only appends to the accumulated output: what it adds
    is what it produces from the empty output. *)
Definition appends (run : str -> result str) : Prop :=
  forall acc, run acc = (text <- run [] ;; Ok (acc ++ text)).

(** ** Tokens and Forests, back and forth *)

(** [" ".join(tokens)] *)
Fixpoint join_spaces (tokens : list str) : str :=
  match tokens with
  | [] => []
  | [tok] => tok
  | tok :: rest => tok ++ 32 :: join_spaces rest
  end.

(** The keyword that opens a block of kind [k]. *)
Definition keyword_text (k : block_kind) : str :=
  match k with
  | Class => py "class"
  | Def => py "def"
  | If => py "if"
  | While => py "while"
  | Else => py "else"
  | Elsif => py "elsif"
  | Do => py "do"
  end.

(** A token that is neither a block keyword nor [end]: the parser wraps it
    in a fragment. *)
Definition plain (token : str) : bool :=
  match Parser.block_keyword token with
  | Some _ => false
  | None => negb (str_eqb token tok_end)
  end.

(** The token sequence a node stands for: its keyword, the tokens of its
    body and [end] for a block, its value for a fragment. *)
Fixpoint tokens_of (n : node) : list str :=
  match n with
  | Block k body => keyword_text k :: flat_map tokens_of body ++ [tok_end]
  | Code value => [value]
  end.

Definition forest_tokens (forest : list node) : list str :=
  flat_map tokens_of forest.

(** The tokens held by the blocks that are still open, the outermost block
    first: each has its keyword and its body so far, and no [end]. *)
Fixpoint stack_tokens (stack : list Parser.open_block) : list str :=
  match stack with
  | [] => []
  | top :: below =>
      stack_tokens below ++ keyword_text (fst top) :: forest_tokens (snd top)
  end.

(** The tokens a parser state stands for. *)
Definition consumed (st : Parser.state) : list str :=
  forest_tokens (Parser.ast st) ++ stack_tokens (Parser.stack st).

(** Every fragment of the tree holds a plain token. *)
Fixpoint plain_fragments (n : node) : bool :=
  match n with
  | Code value => plain value
  | Block _ body => forallb plain_fragments body
  end.

Definition state_plain (st : Parser.state) : bool :=
  forallb (fun b : Parser.open_block => forallb plain_fragments (snd b))
    (Parser.stack st)
  && forallb plain_fragments (Parser.ast st).

(** The node [n] put where the parser puts a finished node: in the body of
    the block on top of the stack, or in the Forest when no block is
    open. *)
Definition attach (n : node) (st : Parser.state) : Parser.state :=
  match Parser.stack st with
  | [] => Parser.mk_state [] (Parser.ast st ++ [n])
  | top :: below =>
      Parser.mk_state (Parser.append_to_top n top below) (Parser.ast st)
  end.

Definition count_openers (tokens : list str) : nat :=
  length (filter (fun t => match Parser.block_keyword t with
                           | Some _ => true
                           | None => false
                           end) tokens).

Definition count_ends (tokens : list str) : nat :=
  length (filter (fun t => str_eqb t tok_end) tokens).

(** ** Braces *)

Definition count_char (c : char) (text : str) : nat :=
  count_occ N.eq_dec text c.

Definition brace_free (v : str) : bool :=
  forallb (fun c => negb (c =? 123) && negb (c =? 125)) v.

Fixpoint no_brace_fragments (n : node) : bool :=
  match n with
  | Code value => brace_free value
  | Block _ body => forallb no_brace_fragments body
  end.

(** ** Named blocks *)

(** Every class, def, if or while keyword is directly followed by a plain
    token; [expect] tells that the token before was such a keyword. *)
Fixpoint names_follow (expect : bool) (tokens : list str) : bool :=
  match tokens with
  | [] => true
  | t :: rest =>
      if expect then plain t && names_follow false rest
      else
        match Parser.block_keyword t with
        | Some k => names_follow (rendered k) rest
        | None => names_follow false rest
        end
  end.

(** An open block that will render once it is closed. *)
Definition open_ok (b : Parser.open_block) : bool :=
  renderable (Block (fst b) (snd b)).

(** The state of the parser between two tokens of such an input: the
    Forest renders, every open block has its name, except the top block
    when its keyword has just been read. *)
Definition named_state (expect : bool) (st : Parser.state) : Prop :=
  forallb renderable (Parser.ast st) = true /\
  match expect, Parser.stack st with
  | true, top :: below =>
      rendered (fst top) = true /\ snd top = [] /\ forallb open_ok below = true
  | true, [] => False
  | false, stk => forallb open_ok stk = true
  end.

(** * Properties *)

(** ** Lexer *)

Section LexerFacts.
Import Lexer.

Ltac bool_arith :=
  repeat match goal with
    | H : _ = true |- _ =>
        rewrite ?orb_true_iff, ?andb_true_iff, ?N.leb_le, ?N.eqb_eq in H
    | |- _ = false => apply not_true_is_false; intro
    end; lia.

Lemma ident_start_char c : ident_start c = true -> ident_char c = true.
Proof. unfold ident_char. intros ->. reflexivity. Qed.

Lemma ident_char_not_space c : ident_char c = true -> is_space c = false.
Proof. unfold ident_char, ident_start, is_space. intros H. bool_arith. Qed.

Lemma star_Forall p s : Forall (fun c => p c = true) (star p s).
Proof.
  induction s as [|c s IH]; simpl; [constructor|].
  destruct (p c) eqn:E; constructor; assumption.
Qed.

Lemma star_skipn p s : star p s ++ skipn (length (star p s)) s = s.
Proof.
  induction s as [|c s IH]; simpl; [reflexivity|].
  destruct (p c); simpl; [now rewrite IH | reflexivity].
Qed.

Lemma star_maximal p s : stops p (skipn (length (star p s)) s).
Proof.
  induction s as [|c s IH]; simpl; [exact I|].
  destruct (p c) eqn:E; simpl; assumption.
Qed.

Lemma findall_skip k s : findall k s = findall 0 (skipn k s).
Proof.
  revert k; induction s as [|c s IH]; intros [|k]; try reflexivity.
  simpl skipn. rewrite <- IH. reflexivity.
Qed.

(** The scanning loop, one match at a time. *)
Lemma findall_ident c rest :
  ident_start c = true ->
  findall 0 (c :: rest) =
  (c :: star ident_char rest)
    :: findall 0 (skipn (length (star ident_char rest)) rest).
Proof.
  intros H. simpl. rewrite H. simpl. rewrite Nat.sub_0_r.
  now rewrite findall_skip.
Qed.

Lemma findall_single c rest :
  ident_start c = false -> is_space c = false ->
  findall 0 (c :: rest) = [c] :: findall 0 rest.
Proof. intros H1 H2. simpl. rewrite H1, H2. reflexivity. Qed.

Lemma findall_space c rest :
  is_space c = true -> findall 0 (c :: rest) = findall 0 rest.
Proof.
  intros H. simpl.
  destruct (ident_start c) eqn:E.
  - apply ident_start_char, ident_char_not_space in E. congruence.
  - rewrite H. reflexivity.
Qed.

(** Induction on the input that follows the scanner: after an identifier
    the scan resumes behind the greedy run. *)
Lemma scan_ind (P : str -> Prop) :
  P [] ->
  (forall c rest, is_space c = true -> P rest -> P (c :: rest)) ->
  (forall c rest, ident_start c = true ->
     P (skipn (length (star ident_char rest)) rest) -> P (c :: rest)) ->
  (forall c rest, ident_start c = false -> is_space c = false ->
     P rest -> P (c :: rest)) ->
  forall s, P s.
Proof.
  intros Hnil Hsp Hid Hone s.
  assert (H : forall n s, (length s <= n)%nat -> P s).
  { clear s. induction n as [|n IH]; intros [|c rest] Hlen; simpl in Hlen;
      try assumption; try lia.
    destruct (ident_start c) eqn:E1.
    - apply Hid; [assumption|]. apply IH.
      rewrite length_skipn. lia.
    - destruct (is_space c) eqn:E2.
      + apply Hsp; [assumption|]. apply IH. lia.
      + apply Hone; try assumption. apply IH. lia. }
  apply (H (length s)). lia.
Qed.

End LexerFacts.

Section LexerClaims.
Import Lexer.

Lemma star_no_space s :
  filter (fun c => negb (is_space c)) (star ident_char s) = star ident_char s.
Proof.
  induction s as [|c s IH]; simpl; [reflexivity|].
  destruct (ident_char c) eqn:E; simpl; [|reflexivity].
  rewrite (ident_char_not_space _ E). simpl. now rewrite IH.
Qed.

Lemma tokens_concat code :
  concat (tokenize_ruby_code code) = remove_whitespace code.
Proof.
  unfold tokenize_ruby_code, remove_whitespace.
  induction code as [|c rest Hsp IH|c rest Hid IH|c rest Hid Hsp IH] using scan_ind.
  - reflexivity.
  - rewrite findall_space by assumption. simpl. now rewrite Hsp.
  - rewrite findall_ident by assumption. simpl.
    rewrite (ident_char_not_space _ (ident_start_char _ Hid)). simpl.
    rewrite IH. f_equal.
    transitivity
      (filter (fun c => negb (is_space c))
         (star ident_char rest ++ skipn (length (star ident_char rest)) rest)).
    + rewrite filter_app, star_no_space. reflexivity.
    + now rewrite star_skipn.
  - rewrite findall_single by assumption. simpl. rewrite Hsp. simpl.
    now rewrite IH.
Qed.

Lemma tokens_nonempty code :
  Forall (fun tok => tok <> []) (tokenize_ruby_code code).
Proof.
  unfold tokenize_ruby_code.
  induction code as [|c rest Hsp IH|c rest Hid IH|c rest Hid Hsp IH] using scan_ind.
  - constructor.
  - now rewrite findall_space.
  - rewrite findall_ident by assumption. constructor; [discriminate|assumption].
  - rewrite findall_single by assumption. constructor; [discriminate|assumption].
Qed.

Lemma tokens_scan code : scans_identifiers code (tokenize_ruby_code code).
Proof.
  unfold tokenize_ruby_code, scans_identifiers.
  induction code as [|c rest Hsp IH|c rest Hid IH|c rest Hid Hsp IH] using scan_ind.
  - constructor.
  - rewrite findall_space by assumption. now constructor.
  - rewrite findall_ident by assumption.
    pose proof (scans_run ident_start c _ _ _ Hid
                  (star_Forall ident_char rest)
                  (star_maximal ident_char rest) IH) as H.
    now rewrite star_skipn in H.
  - rewrite findall_single by assumption. now constructor.
Qed.

Lemma scans_no_whitespace start code toks :
  (forall c, start c = true -> is_space c = false) ->
  scans start code toks -> Forall no_whitespace toks.
Proof.
  intros Hstart. induction 1; try assumption; constructor; try assumption.
  - constructor; [auto|].
    eapply Forall_impl; [|eassumption]. apply ident_char_not_space.
  - constructor; [assumption|constructor].
Qed.

Lemma tokens_no_whitespace code :
  Forall no_whitespace (tokenize_ruby_code code).
Proof.
  apply (scans_no_whitespace ident_start code); [|apply tokens_scan].
  intros c H. now apply ident_char_not_space, ident_start_char.
Qed.

Lemma run_split (p : char -> bool) run1 s1 run2 s2 :
  Forall (fun d => p d = true) run1 -> stops p s1 ->
  Forall (fun d => p d = true) run2 -> stops p s2 ->
  run1 ++ s1 = run2 ++ s2 -> run1 = run2 /\ s1 = s2.
Proof.
  intros F1 S1 F2. revert run2 F2.
  induction F1 as [|d run1 Hd F1 IH]; intros run2 F2 S2 E.
  - destruct F2 as [|e run2 He F2]; [now split|].
    simpl in E. subst s1. simpl in S1. congruence.
  - destruct F2 as [|e run2 He F2].
    + simpl in E. subst s2. simpl in S2. congruence.
    + simpl in E. injection E as -> E.
      destruct (IH run2 F2 S2 E) as [-> ->]. now split.
Qed.

(** The scan is a function of the input: it describes one token sequence
    only. *)
Lemma scans_functional start code toks1 toks2 :
  (forall c, start c = true -> ident_char c = true) ->
  scans start code toks1 -> scans start code toks2 -> toks1 = toks2.
Proof.
  intros Hstart H1. revert toks2.
  induction H1 as [|c s toks Hsp H1 IH|c run s toks Hc Hrun Hstop H1 IH
                  |c s toks Hsp Hc H1 IH]; intros toks2 H2.
  - now inversion H2.
  - inversion H2; subst.
    + now apply IH.
    + apply Hstart, ident_char_not_space in H3. congruence.
    + congruence.
  - inversion H2; subst.
    + apply Hstart, ident_char_not_space in Hc. congruence.
    + destruct (run_split ident_char run s run0 s0) as [-> ->]; auto.
      f_equal. now apply IH.
    + congruence.
  - inversion H2; subst.
    + congruence.
    + congruence.
    + f_equal. now apply IH.
Qed.

(** Claim C9.  The tokens, concatenated in order, are the input with its
    whitespace removed, and no token is empty. *)
Theorem tokens_reconstruct_input code :
  concat (tokenize_ruby_code code) = remove_whitespace code /\
  Forall (fun tok => tok <> []) (tokenize_ruby_code code).
Proof. split; [apply tokens_concat|apply tokens_nonempty]. Qed.

(** Claim C8, as the code has it.  The tokens are the left-to-right scan in
    which a run begins with a letter or an underscore and continues, as far
    as it can, with letters, digits and underscores, and any other
    character that is not whitespace is a token by itself; this scan has
    one result only.  No token holds whitespace, and the empty input gives
    no token. *)
Theorem tokens_are_identifiers_or_single_characters code :
  scans_identifiers code (tokenize_ruby_code code) /\
  (forall toks, scans_identifiers code toks -> toks = tokenize_ruby_code code) /\
  Forall no_whitespace (tokenize_ruby_code code) /\
  tokenize_ruby_code [] = [].
Proof.
  split; [apply tokens_scan|split; [|split]].
  - intros toks H.
    apply (scans_functional ident_start code); try assumption.
    + apply ident_start_char.
    + apply tokens_scan.
  - apply tokens_no_whitespace.
  - reflexivity.
Qed.

Lemma tokens_are_identifiers_or_single_characters_witness :
  [py "a1"; py "2"] = tokenize_ruby_code (py "a1 2").
Proof.
  apply (proj1 (proj2 (tokens_are_identifiers_or_single_characters (py "a1 2")))).
  apply (scans_run ident_start 97 [49] (py " 2"));
    [reflexivity|repeat constructor|reflexivity|].
  apply scans_space; [reflexivity|].
  apply scans_single; [reflexivity|reflexivity|constructor].
Defined.

(** A digit does not begin a run: ["12"] gives the two tokens ["1"] and
    ["2"], where the scan of the specification has the single run ["12"]. *)
Lemma digits_are_not_scanned_as_a_run :
  tokenize_ruby_code (py "12") = [py "1"; py "2"] /\
  scans_as_specified (py "12") [py "12"] /\
  ~ scans_as_specified (py "12") (tokenize_ruby_code (py "12")).
Proof.
  split; [reflexivity|split].
  - apply (scans_run ident_char 49 [50] [] []).
    + reflexivity.
    + repeat constructor.
    + exact I.
    + constructor.
  - intros H. apply (scans_functional ident_char _ _ [py "12"]) in H.
    + discriminate.
    + auto.
    + apply (scans_run ident_char 49 [50] [] []).
      * reflexivity.
      * repeat constructor.
      * exact I.
      * constructor.
Qed.

End LexerClaims.

(** ** Parser *)

Section ParserFacts.
Import Parser.

Lemma str_eqb_eq a b : str_eqb a b = true <-> a = b.
Proof.
  unfold str_eqb. destruct (list_eq_dec N.eq_dec a b); split; congruence.
Qed.

Lemma str_eqb_refl a : str_eqb a a = true.
Proof. now apply str_eqb_eq. Qed.

Lemma end_not_keyword : block_keyword tok_end = None.
Proof. reflexivity. Qed.

Lemma parse_token_open token k st :
  block_keyword token = Some k ->
  parse_token token st = Ok (mk_state ((k, []) :: stack st) (ast st)).
Proof. unfold parse_token. now intros ->. Qed.

Lemma parse_token_end st :
  parse_token tok_end st =
  match stack st with
  | [] => Raise IndexError
  | top :: [] => Ok (mk_state [] (ast st ++ [close top]))
  | top :: parent :: rest =>
      Ok (mk_state ((fst parent, snd parent ++ [close top]) :: rest) (ast st))
  end.
Proof.
  unfold parse_token. rewrite end_not_keyword, str_eqb_refl.
  destruct (stack st) as [|top [|parent rest]]; reflexivity.
Qed.

Lemma parse_token_other token st :
  block_keyword token = None -> str_eqb token tok_end = false ->
  parse_token token st =
  match stack st with
  | [] => Ok (mk_state [] (ast st ++ [Code token]))
  | top :: below =>
      Ok (mk_state ((fst top, snd top ++ [Code token]) :: below) (ast st))
  end.
Proof.
  unfold parse_token, tok_end. intros -> ->.
  destruct (stack st); reflexivity.
Qed.

(** The three cases of a token. *)
Lemma token_cases token :
  (exists k, block_keyword token = Some k) \/
  token = tok_end \/
  (block_keyword token = None /\ str_eqb token tok_end = false).
Proof.
  destruct (block_keyword token) as [k|] eqn:E; [left; now exists k|].
  right. destruct (str_eqb token tok_end) eqn:E2.
  - left. now apply str_eqb_eq.
  - right. now split.
Qed.

Lemma parse_loop_app pre post st :
  parse_loop (pre ++ post) st = (st' <- parse_loop pre st ;; parse_loop post st').
Proof.
  revert st; induction pre as [|t pre IH]; intros st; simpl; [reflexivity|].
  destruct (parse_token t st); simpl; [apply IH|reflexivity].
Qed.

(** The depth counter follows the height of the stack, and popping the
    empty stack is the one way the loop can fail. *)
Lemma parse_loop_depth tokens st :
  match parse_loop tokens st with
  | Ok st' => depth_after (length (stack st)) tokens = Some (length (stack st'))
  | Raise e => depth_after (length (stack st)) tokens = None /\ e = IndexError
  end.
Proof.
  revert st; induction tokens as [|t tokens IH]; intros st; simpl;
    [reflexivity|].
  assert (IH' : forall st1 d, d = length (stack st1) ->
            match parse_loop tokens st1 with
            | Ok st' => depth_after d tokens = Some (length (stack st'))
            | Raise e => depth_after d tokens = None /\ e = IndexError
            end) by (intros st1 d ->; apply IH).
  destruct (token_cases t) as [[k Hk]|[->|[Hk He]]].
  - rewrite (parse_token_open _ _ _ Hk), Hk. simpl. now apply IH'.
  - rewrite parse_token_end, end_not_keyword, str_eqb_refl.
    destruct (stack st) as [|top [|parent rest]]; simpl.
    + now split.
    + now apply IH'.
    + now apply IH'.
  - rewrite (parse_token_other _ _ Hk He), Hk, He.
    destruct (stack st) as [|top below]; simpl; now apply IH'.
Qed.

Lemma parse_loop_ok_iff tokens :
  (exists st, parse_loop tokens initial = Ok st) <-> unmatched_end tokens = false.
Proof.
  unfold unmatched_end.
  pose proof (parse_loop_depth tokens initial) as H. simpl in H.
  destruct (parse_loop tokens initial) as [st|e].
  - rewrite H. split; [reflexivity|]. intros _. now exists st.
  - destruct H as [-> _]. split; [intros [st Hst]|]; discriminate.
Qed.

Lemma parse_loop_raise tokens st e :
  parse_loop tokens st = Raise e ->
  e = IndexError /\
  exists pre post st',
    tokens = pre ++ tok_end :: post /\ parse_loop pre st = Ok st' /\ stack st' = [].
Proof.
  revert st; induction tokens as [|t tokens IH]; intros st; simpl;
    [discriminate|].
  destruct (parse_token t st) as [st1|e1] eqn:E; simpl.
  - intros H. destruct (IH _ H) as [-> (pre & post & st' & -> & Hpre & Hst)].
    split; [reflexivity|].
    exists (t :: pre), post, st'. simpl. rewrite E. simpl. now repeat split.
  - intros [= <-].
    destruct (token_cases t) as [[k Hk]|[->|[Hk He]]].
    + rewrite (parse_token_open _ _ _ Hk) in E. discriminate.
    + rewrite parse_token_end in E.
      destruct (stack st) as [|top [|parent rest]] eqn:Hs; try discriminate.
      injection E as <-. split; [reflexivity|].
      now exists [], tokens, st.
    + rewrite (parse_token_other _ _ Hk He) in E.
      destruct (stack st); discriminate.
Qed.

Lemma end_on_empty_stack_raises tokens :
  end_on_empty_stack tokens -> parse_loop tokens initial = Raise IndexError.
Proof.
  intros (pre & post & st & -> & Hpre & Hst).
  rewrite parse_loop_app, Hpre. simpl.
  rewrite parse_token_end, Hst. reflexivity.
Qed.

(** Claim C4.  A token sequence with an [end] that has no matching open
    block meets that [end] with the stack empty, and [parse_tokens] then
    raises [IndexError] ([pop from empty list]) instead of returning a
    Forest.  A token sequence without such an [end] never pops the empty
    stack, and [parse_tokens] returns a Forest. *)
Theorem unmatched_end_is_fatal tokens :
  (unmatched_end tokens = true ->
     end_on_empty_stack tokens /\ parse_tokens tokens = Raise IndexError) /\
  (unmatched_end tokens = false ->
     ~ end_on_empty_stack tokens /\ exists forest, parse_tokens tokens = Ok forest).
Proof.
  unfold parse_tokens. split; intros H.
  - destruct (parse_loop tokens initial) as [st|e] eqn:E.
    + assert (unmatched_end tokens = false)
        by (apply parse_loop_ok_iff; now exists st).
      congruence.
    + destruct (parse_loop_raise _ _ _ E) as [-> Hex]. now split.
  - apply parse_loop_ok_iff in H. destruct H as [st Hst]. split.
    + intros Hend. apply end_on_empty_stack_raises in Hend. congruence.
    + rewrite Hst. simpl. now exists (ast st).
Qed.

Lemma unmatched_end_is_fatal_witness :
  (end_on_empty_stack (map py ["class"; "Foo"; "end"; "end"]%string) /\
   parse_tokens (map py ["class"; "Foo"; "end"; "end"]%string) = Raise IndexError) /\
  (~ end_on_empty_stack (map py ["class"; "Foo"; "end"]%string) /\
   exists forest, parse_tokens (map py ["class"; "Foo"; "end"]%string) = Ok forest).
Proof.
  split.
  - apply (proj1 (unmatched_end_is_fatal _)). vm_compute. reflexivity.
  - apply (proj2 (unmatched_end_is_fatal _)). vm_compute. reflexivity.
Defined.

(** While a block is open the Forest does not change: when the loop ends
    with a non-empty stack, the Forest is the one that had been built when
    the outermost open block was pushed. *)
Lemma unclosed_prefix tokens st :
  parse_loop tokens initial = Ok st -> stack st <> [] ->
  exists pre kw suf st0,
    tokens = pre ++ kw :: suf /\ block_keyword kw <> None /\
    parse_loop pre initial = Ok st0 /\ stack st0 = [] /\ ast st = ast st0.
Proof.
  revert st. induction tokens as [|t l IH] using rev_ind; intros st.
  - intros [= <-]. simpl. congruence.
  - rewrite parse_loop_app.
    destruct (parse_loop l initial) as [st1|] eqn:E1; simpl; [|discriminate].
    destruct (parse_token t st1) as [st2|] eqn:E2; simpl; [|discriminate].
    intros [= ->] Hne.
    assert (Hkeep : stack st1 <> [] -> ast st = ast st1 ->
              exists pre kw suf st0,
                l ++ [t] = pre ++ kw :: suf /\ block_keyword kw <> None /\
                parse_loop pre initial = Ok st0 /\ stack st0 = [] /\
                ast st = ast st0).
    { intros Hs1 Ha.
      destruct (IH st1 eq_refl Hs1) as (pre & kw & suf & st0 & -> & Hkw & Hpre & Hs0 & Ha0).
      exists pre, kw, (suf ++ [t]), st0. rewrite <- app_assoc. simpl.
      repeat split; try assumption. congruence. }
    destruct (token_cases t) as [[k Hk]|[->|[Hk He]]].
    + rewrite (parse_token_open _ _ _ Hk) in E2. injection E2 as <-.
      destruct (stack st1) as [|top below] eqn:Hs1.
      * exists l, t, [], st1. repeat split; try assumption. congruence.
      * apply Hkeep; [discriminate|reflexivity].
    + rewrite parse_token_end in E2.
      destruct (stack st1) as [|top [|parent rest]] eqn:Hs1;
        try discriminate; injection E2 as <-.
      * simpl in Hne. congruence.
      * apply Hkeep; [discriminate|reflexivity].
    + rewrite (parse_token_other _ _ Hk He) in E2.
      destruct (stack st1) as [|top below] eqn:Hs1; injection E2 as <-.
      * simpl in Hne. congruence.
      * apply Hkeep; [discriminate|reflexivity].
Qed.

(** Claim C3.  When the input ends with blocks still on the stack,
    [parse_tokens] returns without error the Forest as it was when the
    outermost of those blocks was opened: the open blocks and everything
    that came after that opening are dropped.  The tokens of
    ["class Foo def bar"] give the empty Forest. *)
Theorem unclosed_blocks_are_discarded :
  (forall tokens st,
     parse_loop tokens initial = Ok st -> stack st <> [] ->
     exists pre kw suf st0,
       tokens = pre ++ kw :: suf /\ block_keyword kw <> None /\
       parse_loop pre initial = Ok st0 /\ stack st0 = [] /\
       parse_tokens tokens = Ok (ast st0)) /\
  parse_tokens (Lexer.tokenize_ruby_code (py "class Foo def bar")) = Ok [].
Proof.
  split; [|reflexivity].
  intros tokens st Hst Hne.
  destruct (unclosed_prefix tokens st Hst Hne)
    as (pre & kw & suf & st0 & Htok & Hkw & Hpre & Hs0 & Ha).
  exists pre, kw, suf, st0. repeat split; try assumption.
  unfold parse_tokens. rewrite Hst. simpl. now rewrite Ha.
Qed.

Lemma unclosed_blocks_are_discarded_witness :
  exists pre kw suf st0,
    map py ["x"; "class"; "Foo"; "def"; "bar"]%string = pre ++ kw :: suf /\
    block_keyword kw <> None /\
    parse_loop pre initial = Ok st0 /\ stack st0 = [] /\
    parse_tokens (map py ["x"; "class"; "Foo"; "def"; "bar"]%string) = Ok (ast st0).
Proof.
  apply (proj1 unclosed_blocks_are_discarded _
           (mk_state [(Def, [Code (py "bar")]); (Class, [Code (py "Foo")])]
                     [Code (py "x")])).
  - vm_compute. reflexivity.
  - simpl. discriminate.
Defined.

(** Claim C2.  In a well-balanced token sequence every [end] finds a block
    on top of the stack and pops it; the popped node becomes the last child
    of the block below it, or the last node of the Forest when no block is
    left.  The tokens of ["class Foo def bar end end"] give one class node
    whose body is the fragment ["Foo"] followed by a def node. *)
Theorem end_attaches_popped_block :
  (forall tokens pre post,
     well_balanced tokens = true -> tokens = pre ++ tok_end :: post ->
     exists st top below,
       parse_loop pre initial = Ok st /\ stack st = top :: below /\
       (forall parent rest, below = parent :: rest ->
          parse_loop (pre ++ [tok_end]) initial =
          Ok (mk_state ((fst parent, snd parent ++ [close top]) :: rest) (ast st))) /\
       (below = [] ->
          parse_loop (pre ++ [tok_end]) initial =
          Ok (mk_state [] (ast st ++ [close top])))) /\
  parse_tokens (Lexer.tokenize_ruby_code (py "class Foo def bar end end")) =
  Ok [Block Class [Code (py "Foo"); Block Def [Code (py "bar")]]].
Proof.
  split; [|reflexivity].
  intros tokens pre post Hbal ->.
  assert (Hok : exists st, parse_loop (pre ++ tok_end :: post) initial = Ok st).
  { apply parse_loop_ok_iff. unfold well_balanced, unmatched_end in *.
    destruct (depth_after 0 (pre ++ tok_end :: post)); [reflexivity|discriminate]. }
  destruct Hok as [st_end Hend]. rewrite parse_loop_app in Hend.
  destruct (parse_loop pre initial) as [st|] eqn:Hpre; simpl in Hend;
    [|discriminate].
  destruct (parse_token tok_end st) as [st1|] eqn:Hstep; simpl in Hend;
    [|discriminate].
  rewrite parse_token_end in Hstep.
  destruct (stack st) as [|top below] eqn:Hs; [discriminate|].
  exists st, top, below.
  split; [reflexivity|split; [exact Hs|split]].
  - intros parent rest ->. rewrite parse_loop_app, Hpre. simpl.
    rewrite parse_token_end, Hs. reflexivity.
  - intros ->. rewrite parse_loop_app, Hpre. simpl.
    rewrite parse_token_end, Hs. reflexivity.
Qed.

Lemma end_attaches_popped_block_witness :
  exists st top below,
    parse_loop (map py ["class"; "Foo"; "def"; "bar"]%string) initial = Ok st /\
    stack st = top :: below /\
    (forall parent rest, below = parent :: rest ->
       parse_loop (map py ["class"; "Foo"; "def"; "bar"]%string ++ [tok_end]) initial =
       Ok (mk_state ((fst parent, snd parent ++ [close top]) :: rest) (ast st))) /\
    (below = [] ->
       parse_loop (map py ["class"; "Foo"; "def"; "bar"]%string ++ [tok_end]) initial =
       Ok (mk_state [] (ast st ++ [close top]))).
Proof.
  apply (proj1 end_attaches_popped_block
           (map py ["class"; "Foo"; "def"; "bar"; "end"; "end"]%string)
           (map py ["class"; "Foo"; "def"; "bar"]%string)
           [tok_end]).
  - vm_compute. reflexivity.
  - reflexivity.
Defined.

End ParserFacts.

(** ** Renderer *)

Section RendererFacts.
Import Renderer.

Lemma keyword_class :
  getitem RUBY_TO_CSHARP_KEYWORDS (py "class") = Ok (py "public class").
Proof. reflexivity. Qed.

Lemma keyword_def :
  getitem RUBY_TO_CSHARP_KEYWORDS (py "def") = Ok (py "public void").
Proof. reflexivity. Qed.

Lemma keyword_if : getitem RUBY_TO_CSHARP_KEYWORDS (py "if") = Ok (py "if").
Proof. reflexivity. Qed.

Lemma keyword_while :
  getitem RUBY_TO_CSHARP_KEYWORDS (py "while") = Ok (py "while").
Proof. reflexivity. Qed.

Lemma transpile_unrendered k body acc :
  rendered k = false -> transpile_node (Block k body) acc = Ok acc.
Proof. destruct k; try discriminate; reflexivity. Qed.

Lemma transpile_empty k acc :
  rendered k = true -> transpile_node (Block k []) acc = Raise IndexError.
Proof. destruct k; try discriminate; reflexivity. Qed.

Lemma transpile_block k first rest acc :
  rendered k = true ->
  transpile_node (Block k (first :: rest)) acc =
  (name <- value_of first ;;
   code <- for_each transpile_node rest (acc ++ header k name) ;;
   Ok (code ++ footer k)).
Proof.
  destruct k; try discriminate; intros _;
    cbn [transpile_node];
    rewrite ?keyword_class, ?keyword_def, ?keyword_if, ?keyword_while;
    destruct first as [k' body'|value]; try reflexivity;
    cbn [value_of bind]; unfold header, footer;
    cbn [header_line footer_line];
    rewrite <- ?app_assoc; reflexivity.
Qed.

Lemma transpile_code value acc :
  transpile_node (Code value) acc = Ok (acc ++ py "    " ++ value ++ nl).
Proof. reflexivity. Qed.

Lemma for_each_cons child rest acc :
  for_each transpile_node (child :: rest) acc =
  (code <- transpile_node child acc ;; for_each transpile_node rest code).
Proof. reflexivity. Qed.

Lemma for_each_app l1 l2 acc :
  for_each transpile_node (l1 ++ l2) acc =
  (code <- for_each transpile_node l1 acc ;; for_each transpile_node l2 code).
Proof.
  revert acc; induction l1 as [|n l1 IH]; intros acc; [reflexivity|].
  simpl app. rewrite !for_each_cons.
  destruct (transpile_node n acc); simpl; [apply IH|reflexivity].
Qed.

(** *** The accumulator is only appended to *)

Lemma for_each_appends l :
  Forall (fun n => appends (transpile_node n)) l ->
  appends (for_each transpile_node l).
Proof.
  induction 1 as [|n l Hn Hl IH]; intros acc.
  - simpl. now rewrite app_nil_r.
  - rewrite !for_each_cons, (Hn acc).
    destruct (transpile_node n []) as [t|e]; simpl; [|reflexivity].
    rewrite (IH (acc ++ t)), (IH t).
    destruct (for_each transpile_node l []); simpl; [|reflexivity].
    now rewrite app_assoc.
Qed.

Lemma transpile_node_appends n : appends (transpile_node n).
Proof.
  induction n as [k body IH|value] using node_nested_ind; intros acc.
  - destruct (rendered k) eqn:Hk.
    + destruct body as [|first rest].
      * now rewrite !transpile_empty.
      * rewrite !transpile_block by assumption.
        destruct (value_of first) as [name|]; simpl; [|reflexivity].
        apply Forall_inv_tail, for_each_appends in IH.
        rewrite (IH (acc ++ header k name)), (IH (header k name)).
        destruct (for_each transpile_node rest []); simpl; [|reflexivity].
        now rewrite <- !app_assoc.
    + rewrite !transpile_unrendered by assumption. simpl.
      now rewrite app_nil_r.
  - simpl. reflexivity.
Qed.

Lemma transpile_all_appends l : appends (for_each transpile_node l).
Proof.
  apply for_each_appends, Forall_forall. intros n _.
  apply transpile_node_appends.
Qed.

(** *** Which Forests render *)

Lemma for_each_renderable l :
  Forall (fun n => forall acc,
            (exists out, transpile_node n acc = Ok out) <-> renderable n = true) l ->
  forall acc,
    (exists out, for_each transpile_node l acc = Ok out) <->
    forallb renderable l = true.
Proof.
  induction 1 as [|n l Hn Hl IH]; intros acc.
  - simpl. split; [reflexivity|]. intros _. now exists acc.
  - rewrite for_each_cons. simpl forallb. rewrite andb_true_iff.
    rewrite <- (Hn acc).
    destruct (transpile_node n acc) as [code|e]; simpl.
    + rewrite (IH code). split; [intros H; split; [now exists code|exact H]|tauto].
    + split; [intros [out H]; discriminate|intros [[out H] _]; discriminate].
Qed.

Lemma transpile_node_renderable n acc :
  (exists out, transpile_node n acc = Ok out) <-> renderable n = true.
Proof.
  revert acc.
  induction n as [k body IH|value] using node_nested_ind; intros acc.
  - simpl renderable. destruct (rendered k) eqn:Hk.
    + destruct body as [|first rest].
      * rewrite transpile_empty by assumption.
        split; [intros [out H]|]; discriminate.
      * rewrite transpile_block by assumption.
        destruct first as [k' body'|name]; simpl.
        -- split; [intros [out H]|]; discriminate.
        -- apply Forall_inv_tail in IH.
           rewrite <- (for_each_renderable rest IH (acc ++ header k name)).
           destruct (for_each transpile_node rest (acc ++ header k name)) as [code|e];
             simpl.
           ++ split; intros _; eexists; reflexivity.
           ++ split; intros [out H]; discriminate.
    + rewrite transpile_unrendered by assumption.
      split; [reflexivity|]. intros _. now exists acc.
  - simpl. split; [reflexivity|]. intros _. eexists; reflexivity.
Qed.

Lemma transpile_renderable forest :
  (exists out, transpile_to_csharp forest = Ok out) <->
  forallb renderable forest = true.
Proof.
  apply for_each_renderable, Forall_forall. intros n _ acc.
  apply transpile_node_renderable.
Qed.

(** *** The text of a block *)

Lemma block_text k body acc out :
  rendered k = true ->
  transpile_node (Block k body) acc = Ok out ->
  exists name rest text,
    body = Code name :: rest /\
    for_each transpile_node rest [] = Ok text /\
    out = acc ++ header k name ++ text ++ footer k.
Proof.
  intros Hk. destruct body as [|first rest].
  - now rewrite transpile_empty.
  - rewrite transpile_block by assumption.
    destruct first as [k' body'|name]; simpl; [discriminate|].
    rewrite (transpile_all_appends rest (acc ++ header k name)).
    destruct (for_each transpile_node rest []) as [text|] eqn:E; simpl;
      [|discriminate].
    intros [= <-]. exists name, rest, text.
    split; [reflexivity|split; [exact E|]].
    now rewrite <- !app_assoc.
Qed.

(** *** Lines *)

Lemma lines_cons_line l rest :
  one_line l = true -> lines (l ++ nl ++ rest) = l :: lines rest.
Proof.
  induction l as [|c l IH]; intros H; [reflexivity|].
  simpl in H. apply andb_true_iff in H as [Hc Hl].
  simpl app. simpl lines.
  destruct (c =? 10); [discriminate|].
  simpl in IH. now rewrite (IH Hl).
Qed.

Lemma unlines_app ls1 ls2 : unlines (ls1 ++ ls2) = unlines ls1 ++ unlines ls2.
Proof. unfold unlines. now rewrite map_app, concat_app. Qed.

Lemma unlines_cons l ls : unlines (l :: ls) = l ++ nl ++ unlines ls.
Proof. unfold unlines. simpl. now rewrite <- app_assoc. Qed.

Lemma lines_unlines ls :
  Forall (fun l => one_line l = true) ls -> lines (unlines ls) = ls.
Proof.
  induction 1 as [|l ls Hl Hls IH]; [reflexivity|].
  rewrite unlines_cons, lines_cons_line by assumption. now rewrite IH.
Qed.

Lemma emits_lines os text : emits os text -> indented_by_origin os (lines text).
Proof. intros (ls & -> & Hone & H). now rewrite lines_unlines. Qed.

Lemma emits_nil : emits [] [].
Proof. exists []. split; [reflexivity|split; constructor]. Qed.

Lemma emits_app os1 os2 t1 t2 :
  emits os1 t1 -> emits os2 t2 -> emits (os1 ++ os2) (t1 ++ t2).
Proof.
  intros (l1 & -> & O1 & H1) (l2 & -> & O2 & H2). exists (l1 ++ l2).
  split; [now rewrite unlines_app|]. split.
  - apply Forall_app. now split.
  - now apply Forall2_app.
Qed.

Lemma emits_line o l :
  one_line l = true -> indent l = origin_indent o -> emits [o] (l ++ nl).
Proof.
  intros H1 H2. exists [l]. split.
  - unfold unlines. simpl. now rewrite app_nil_r.
  - split; constructor; try assumption; constructor.
Qed.

(** *** Tokens on a line *)

Lemma space_is_space c : (c =? 32) = true -> Lexer.is_space c = true.
Proof. rewrite N.eqb_eq. now intros ->. Qed.

Lemma newline_is_space c : (c =? 10) = true -> Lexer.is_space c = true.
Proof. rewrite N.eqb_eq. now intros ->. Qed.

Lemma no_space_one_line v :
  forallb (fun c => negb (Lexer.is_space c)) v = true -> one_line v = true.
Proof.
  unfold one_line. rewrite !forallb_forall. intros H c Hc.
  specialize (H c Hc). destruct (c =? 10) eqn:E; [|reflexivity].
  now rewrite (newline_is_space _ E) in H.
Qed.

Lemma is_token_one_line v : is_token v = true -> one_line v = true.
Proof.
  destruct v as [|c v]; [discriminate|]. unfold is_token.
  apply no_space_one_line.
Qed.

Lemma is_token_indent v : is_token v = true -> indent v = 0%nat.
Proof.
  destruct v as [|c v]; [discriminate|]. unfold is_token. simpl.
  intros H. apply andb_true_iff in H as [Hc _].
  destruct (c =? 32) eqn:E; [|reflexivity].
  now rewrite (space_is_space _ E) in Hc.
Qed.

Lemma one_line_app a b : one_line (a ++ b) = one_line a && one_line b.
Proof. apply forallb_app. Qed.

Lemma header_one_line k name :
  one_line name = true -> one_line (header_line k name) = true.
Proof.
  intros H. destruct k; unfold header_line; rewrite ?one_line_app, ?H;
    reflexivity.
Qed.

Lemma footer_one_line k : one_line (footer_line k) = true.
Proof. destruct k; reflexivity. Qed.

Lemma header_indent k name :
  rendered k = true -> indent (header_line k name) = origin_indent (Some k).
Proof. destruct k; try discriminate; reflexivity. Qed.

Lemma footer_indent k :
  rendered k = true -> indent (footer_line k) = origin_indent (Some k).
Proof. destruct k; try discriminate; reflexivity. Qed.

Lemma code_emits value :
  is_token value = true -> emits [None] (py "    " ++ value ++ nl).
Proof.
  intros H. rewrite app_assoc. apply emits_line.
  - rewrite one_line_app, (is_token_one_line _ H). reflexivity.
  - simpl. now rewrite (is_token_indent _ H).
Qed.

(** *** Every rendered line has the indentation of the node that emits it *)

Lemma for_each_emits l :
  Forall (fun n => tokens_only n = true ->
                   forall text, transpile_node n [] = Ok text ->
                                emits (line_origins n) text) l ->
  forallb tokens_only l = true ->
  forall text, for_each transpile_node l [] = Ok text ->
               emits (flat_map line_origins l) text.
Proof.
  induction 1 as [|n l Hn Hl IH]; intros Htok text.
  - intros [= <-]. apply emits_nil.
  - simpl in Htok. apply andb_true_iff in Htok as [Htn Htl].
    rewrite for_each_cons.
    destruct (transpile_node n []) as [t1|] eqn:E1; simpl; [|discriminate].
    rewrite (transpile_all_appends l t1).
    destruct (for_each transpile_node l []) as [t2|] eqn:E2; simpl;
      [|discriminate].
    intros [= <-]. apply emits_app; [now apply Hn|now apply IH].
Qed.

Lemma transpile_node_emits n :
  tokens_only n = true ->
  forall text, transpile_node n [] = Ok text -> emits (line_origins n) text.
Proof.
  induction n as [k body IH|value] using node_nested_ind; intros Htok text.
  - cbn [line_origins]. destruct (rendered k) eqn:Hk.
    + intros H.
      destruct (block_text _ _ _ _ Hk H) as (name & rest & t & -> & Hrest & ->).
      simpl in Htok. apply andb_true_iff in Htok as [Hname Htok].
      apply Forall_inv_tail in IH.
      rewrite app_nil_l. unfold header, footer.
      apply (emits_app [Some k]); [|apply emits_app].
      * apply emits_line;
          [now apply header_one_line, is_token_one_line|now apply header_indent].
      * now apply (for_each_emits rest IH Htok).
      * apply emits_line; [apply footer_one_line|now apply footer_indent].
    + rewrite transpile_unrendered by assumption. intros [= <-].
      apply emits_nil.
  - rewrite transpile_code, app_nil_l. intros [= <-]. now apply code_emits.
Qed.

Lemma transpile_emits forest out :
  forallb tokens_only forest = true ->
  transpile_to_csharp forest = Ok out ->
  emits (flat_map line_origins forest) out.
Proof.
  intros Htok. apply for_each_emits; [|assumption].
  apply Forall_forall. intros n _. apply transpile_node_emits.
Qed.

(** Claim C5.  A block node of kind else, elsif or do, whatever its body,
    leaves the accumulated output as it is; dropping the node from a Forest
    does not change the rendering, and a Forest made of that node alone
    renders to the empty string. *)
Theorem unrendered_kinds_emit_nothing k body :
  In k [Else; Elsif; Do] ->
  (forall acc, transpile_node (Block k body) acc = Ok acc) /\
  (forall before after,
     transpile_to_csharp (before ++ Block k body :: after) =
     transpile_to_csharp (before ++ after)) /\
  transpile_to_csharp [Block k body] = Ok [].
Proof.
  intros Hk.
  assert (Hr : rendered k = false)
    by (destruct Hk as [<-|[<-|[<-|[]]]]; reflexivity).
  split; [|split].
  - intros acc. now apply transpile_unrendered.
  - intros before after. unfold transpile_to_csharp.
    rewrite !for_each_app.
    destruct (for_each transpile_node before []) as [code|e]; cbn [bind];
      [|reflexivity].
    now rewrite for_each_cons, transpile_unrendered.
  - unfold transpile_to_csharp.
    now rewrite for_each_cons, transpile_unrendered.
Qed.

Lemma unrendered_kinds_emit_nothing_witness :
  (forall acc,
     transpile_node (Block Else [Block Def []; Code (py "x")]) acc = Ok acc) /\
  (forall before after,
     transpile_to_csharp
       (before ++ Block Else [Block Def []; Code (py "x")] :: after) =
     transpile_to_csharp (before ++ after)) /\
  transpile_to_csharp [Block Else [Block Def []; Code (py "x")]] = Ok [].
Proof.
  apply (unrendered_kinds_emit_nothing Else [Block Def []; Code (py "x")]).
  simpl. auto.
Defined.

(** Claim C10, as the code has it.  Rendering a class, def, if or while
    node with an empty body raises [IndexError], and with a body that
    begins with a block it raises [KeyError].  A Forest renders without
    error only when every such node that the renderer reaches (one not
    inside an else, elsif or do node) has a body that begins with a
    fragment; and on a Forest where that holds the renderer raises neither
    [IndexError] nor [KeyError].  The input ["class end"] parses to a class
    node with an empty body, and the pipeline fails on it. *)
Theorem empty_body_fails_to_render :
  (forall k acc,
     rendered k = true -> transpile_node (Block k []) acc = Raise IndexError) /\
  (forall k k' body' rest acc,
     rendered k = true ->
     transpile_node (Block k (Block k' body' :: rest)) acc = Raise KeyError) /\
  (forall forest out,
     transpile_to_csharp forest = Ok out -> forallb renderable forest = true) /\
  (forall forest,
     forallb renderable forest = true ->
     transpile_to_csharp forest <> Raise IndexError /\
     transpile_to_csharp forest <> Raise KeyError) /\
  Parser.parse_tokens (Lexer.tokenize_ruby_code (py "class end")) =
    Ok [Block Class []] /\
  transpile (py "class end") = Raise IndexError.
Proof.
  split; [|split; [|split; [|split; [|split]]]].
  - intros k acc Hk. now apply transpile_empty.
  - intros k k' body' rest acc Hk. now rewrite transpile_block.
  - intros forest out H. apply transpile_renderable. now exists out.
  - intros forest H. apply transpile_renderable in H as [out ->].
    split; discriminate.
  - reflexivity.
  - reflexivity.
Qed.

Lemma empty_body_fails_to_render_witness :
  transpile_node (Block While []) (py "x") = Raise IndexError /\
  transpile_node (Block If [Block Do []; Code (py "y")]) (py "x") = Raise KeyError /\
  forallb renderable [Block Else [Block Class []]; Code (py "z")] = true /\
  (transpile_to_csharp [Block If [Code (py "c"); Block Def [Code (py "m")]]]
     <> Raise IndexError /\
   transpile_to_csharp [Block If [Code (py "c"); Block Def [Code (py "m")]]]
     <> Raise KeyError).
Proof.
  split; [|split; [|split]].
  - apply (proj1 empty_body_fails_to_render While (py "x")). reflexivity.
  - apply (proj1 (proj2 empty_body_fails_to_render) If Do [] [Code (py "y")] (py "x")).
    reflexivity.
  - apply (proj1 (proj2 (proj2 empty_body_fails_to_render))
             [Block Else [Block Class []]; Code (py "z")] (py "    z" ++ nl)).
    vm_compute. reflexivity.
  - apply (proj1 (proj2 (proj2 (proj2 empty_body_fails_to_render)))
             [Block If [Code (py "c"); Block Def [Code (py "m")]]]).
    vm_compute. reflexivity.
Defined.

(** Non-empty bodies are neither enough nor needed for the renderer to
    succeed: ["class def x end end"] parses to a Forest whose class and def
    bodies are non-empty and rendering raises [KeyError], the first element
    of the class body being a block; ["else class end end"] parses to a
    Forest with an empty class body and renders to the empty string. *)
Lemma nonempty_bodies_not_the_precondition :
  (Parser.parse_tokens (Lexer.tokenize_ruby_code (py "class def x end end")) =
     Ok [Block Class [Block Def [Code (py "x")]]] /\
   forallb bodies_nonempty [Block Class [Block Def [Code (py "x")]]] = true /\
   transpile_to_csharp [Block Class [Block Def [Code (py "x")]]] = Raise KeyError) /\
  (Parser.parse_tokens (Lexer.tokenize_ruby_code (py "else class end end")) =
     Ok [Block Else [Block Class []]] /\
   forallb bodies_nonempty [Block Else [Block Class []]] = false /\
   transpile_to_csharp [Block Else [Block Class []]] = Ok []).
Proof. repeat split. Qed.

End RendererFacts.

(** ** Pipeline *)

Section PipelineFacts.
Import Lexer Parser Renderer.

Lemma tokenize_is_token code :
  forallb is_token (tokenize_ruby_code code) = true.
Proof.
  apply forallb_forall. intros tok Hin.
  pose proof (tokens_nonempty code) as Hne.
  pose proof (tokens_no_whitespace code) as Hws.
  rewrite Forall_forall in Hne, Hws.
  specialize (Hne tok Hin). specialize (Hws tok Hin).
  destruct tok as [|c tok]; [congruence|]. unfold is_token.
  apply forallb_forall. intros d Hd.
  unfold no_whitespace in Hws. rewrite Forall_forall in Hws.
  now rewrite (Hws d Hd).
Qed.

Lemma forallb_snoc {A} (f : A -> bool) l x :
  forallb f (l ++ [x]) = forallb f l && f x.
Proof. rewrite forallb_app. simpl. now rewrite andb_true_r. Qed.

Lemma parse_token_tokens token st st' :
  is_token token = true -> state_tokens st = true ->
  parse_token token st = Ok st' -> state_tokens st' = true.
Proof.
  unfold state_tokens. intros Htok Hst.
  apply andb_true_iff in Hst as [Hstack Hast].
  destruct (token_cases token) as [[k Hk]|[->|[Hk He]]].
  - rewrite (parse_token_open _ _ _ Hk). intros [= <-]. simpl.
    now rewrite Hstack, Hast.
  - rewrite parse_token_end.
    destruct (stack st) as [|top [|parent rest]]; [discriminate| |];
      intros [= <-]; simpl in *.
    + rewrite forallb_snoc, Hast. simpl.
      now rewrite andb_true_r in Hstack.
    + rewrite forallb_snoc, Hast. simpl.
      apply andb_true_iff in Hstack as [Htop Hstack].
      apply andb_true_iff in Hstack as [Hparent Hrest].
      now rewrite Htop, Hparent, Hrest.
  - rewrite (parse_token_other _ _ Hk He).
    destruct (stack st) as [|top below]; intros [= <-]; simpl in *.
    + rewrite forallb_snoc, Hast. simpl. now rewrite Htok.
    + rewrite forallb_snoc, Hast. simpl.
      apply andb_true_iff in Hstack as [Htop Hbelow].
      now rewrite Htop, Hbelow, Htok.
Qed.

Lemma parse_loop_tokens tokens st st' :
  forallb is_token tokens = true -> state_tokens st = true ->
  parse_loop tokens st = Ok st' -> state_tokens st' = true.
Proof.
  revert st; induction tokens as [|t tokens IH]; intros st Htoks Hst; simpl.
  - now intros [= <-].
  - simpl in Htoks. apply andb_true_iff in Htoks as [Ht Htoks].
    destruct (parse_token t st) as [st1|] eqn:E; simpl; [|discriminate].
    apply IH; [assumption|]. eapply parse_token_tokens; eassumption.
Qed.

Lemma parse_tokens_tokens tokens forest :
  forallb is_token tokens = true ->
  parse_tokens tokens = Ok forest -> forallb tokens_only forest = true.
Proof.
  unfold parse_tokens. intros Htoks.
  destruct (parse_loop tokens initial) as [st|] eqn:E; simpl; [|discriminate].
  intros [= <-].
  pose proof (parse_loop_tokens tokens initial st Htoks eq_refl E) as H.
  unfold state_tokens in H. now apply andb_true_iff in H as [_ H].
Qed.

Lemma transpile_emits_text code out :
  transpile code = Ok out ->
  exists forest,
    parse_tokens (tokenize_ruby_code code) = Ok forest /\
    emits (flat_map line_origins forest) out.
Proof.
  unfold transpile.
  destruct (parse_tokens (tokenize_ruby_code code)) as [forest|] eqn:E; simpl;
    [|discriminate].
  intros H. exists forest. split; [reflexivity|].
  apply transpile_emits; [|assumption].
  eapply parse_tokens_tokens; [|exact E]. apply tokenize_is_token.
Qed.

(** Claim C1, as the code has it.  The example input tokenizes, parses to
    one class node whose body is the fragment ["Greeter"] followed by a def
    node holding the fragments ["hello"] and ["puts"], and renders to five
    lines, of which the third is ["puts"] behind four spaces. *)
Theorem greeter_end_to_end :
  tokenize_ruby_code greeter_source =
    map py ["class"; "Greeter"; "def"; "hello"; "puts"; "end"; "end"]%string /\
  parse_tokens (tokenize_ruby_code greeter_source) = Ok greeter_forest /\
  transpile_to_csharp greeter_forest =
    Ok (unlines [py "public class Greeter {";
                 py "    public void hello() {";
                 py "    puts";
                 py "    }";
                 py "}"]) /\
  transpile greeter_source =
    Ok (unlines [py "public class Greeter {";
                 py "    public void hello() {";
                 py "    puts";
                 py "    }";
                 py "}"]).
Proof. repeat split. Qed.

(** The third line of the example is not rendered behind eight spaces. *)
Lemma greeter_puts_not_at_eight_spaces :
  transpile greeter_source <>
    Ok (unlines [py "public class Greeter {";
                 py "    public void hello() {";
                 py "        puts";
                 py "    }";
                 py "}"]).
Proof. vm_compute. discriminate. Qed.

(** Claim C6, as the code has it.  What a node adds to the output is the
    same under any output accumulated before it, so no nesting level adds
    indentation.  The lines of a rendered Forest whose fragments are tokens
    are, one for one and in order, the lines that its nodes emit, and each
    begins with exactly the number of spaces of the node that emits it:
    none for the opening and the closing line of a class block, four for
    the opening and the closing line of a def, if or while block and for
    the line of a fragment, at any depth.  The same holds for the output of
    the whole pipeline on any input. *)
Theorem indentation_is_flat :
  (forall n, appends (transpile_node n)) /\
  (forall forest out,
     forallb tokens_only forest = true ->
     transpile_to_csharp forest = Ok out ->
     indented_by_origin (flat_map line_origins forest) (lines out)) /\
  (forall code out,
     transpile code = Ok out ->
     exists forest,
       parse_tokens (tokenize_ruby_code code) = Ok forest /\
       indented_by_origin (flat_map line_origins forest) (lines out)).
Proof.
  split; [exact transpile_node_appends|split].
  - intros forest out Htok H. eapply emits_lines, transpile_emits; eassumption.
  - intros code out H.
    destruct (transpile_emits_text code out H) as (forest & Hp & He).
    exists forest. split; [assumption|]. now apply emits_lines.
Qed.

Lemma indentation_is_flat_witness :
  indented_by_origin
    [Some Class; Some While; Some If; None; Some If; Some While; Some Class]
    [py "public class A {"; py "    while (x) {"; py "    if (y) {";
     py "    z"; py "    }"; py "    }"; py "}"] /\
  exists forest,
    parse_tokens (tokenize_ruby_code (py "def m class B x end y end")) =
      Ok forest /\
    indented_by_origin (flat_map line_origins forest)
      [py "    public void m() {"; py "public class B {"; py "    x"; py "}";
       py "    y"; py "    }"].
Proof.
  split.
  - apply (proj1 (proj2 indentation_is_flat)
             [Block Class [Code (py "A");
                Block While [Code (py "x");
                   Block If [Code (py "y"); Code (py "z")]]]]
             (unlines [py "public class A {"; py "    while (x) {";
                       py "    if (y) {"; py "    z"; py "    }"; py "    }";
                       py "}"])).
    + vm_compute. reflexivity.
    + vm_compute. reflexivity.
  - apply (proj2 (proj2 indentation_is_flat)
             (py "def m class B x end y end")
             (unlines [py "    public void m() {"; py "public class B {";
                       py "    x"; py "}"; py "    y"; py "    }"])).
    vm_compute. reflexivity.
Defined.

(** The lines of a class block nested in another block are not indented:
    ["class A class B end end"]. *)
Lemma nested_class_is_not_indented :
  parse_tokens (tokenize_ruby_code (py "class A class B end end")) =
    Ok [Block Class [Code (py "A"); Block Class [Code (py "B")]]] /\
  transpile_node (Block Class [Code (py "A"); Block Class [Code (py "B")]]) [] =
    Ok (unlines [py "public class A {"; py "public class B {"; py "}"; py "}"]) /\
  ~ nested_lines_indented 4
      (Block Class [Code (py "A"); Block Class [Code (py "B")]]).
Proof.
  split; [reflexivity|split; [reflexivity|]].
  intros H. specialize (H _ eq_refl). vm_compute in H.
  inversion H as [|l ls Hl Hls]. discriminate.
Qed.

Lemma block_lines k name text os :
  rendered k = true -> one_line name = true -> emits os text ->
  lines (header k name ++ text ++ footer k) =
    header_line k name :: lines text ++ [footer_line k] /\
  body_lines (header k name ++ text ++ footer k) = lines text.
Proof.
  intros Hk Hname (ls & -> & Hone & Hls).
  assert (E : header k name ++ unlines ls ++ footer k =
              unlines (header_line k name :: ls ++ [footer_line k])).
  { rewrite unlines_cons, unlines_app. unfold header, footer, unlines at 3.
    simpl. now rewrite <- !app_assoc, app_nil_r. }
  assert (L : lines (header k name ++ unlines ls ++ footer k) =
              header_line k name :: ls ++ [footer_line k]).
  { rewrite E. apply lines_unlines. constructor.
    - now apply header_one_line.
    - apply Forall_app. split; [assumption|].
      constructor; [apply footer_one_line|constructor]. }
  unfold body_lines. rewrite L, lines_unlines by assumption.
  split; [reflexivity|]. simpl tl. apply removelast_last.
Qed.

(** Claim C7, as the code has it.  A def node that renders has a body that
    begins with the fragment of its name; its first line is the method
    header and its last line the closing brace, both behind four spaces,
    and the lines between them are, one for one and in order, the lines
    that the other elements of its body emit, whatever the nesting below:
    each begins with exactly four spaces, except the opening and the
    closing line of a class block, which are not indented.  No line gets
    eight. *)
Theorem def_body_lines_are_flat body out :
  forallb tokens_only body = true ->
  transpile_node (Block Def body) [] = Ok out ->
  exists name rest,
    body = Code name :: rest /\
    lines out =
      (py "    public void " ++ name ++ py "() {")
        :: body_lines out ++ [py "    }"] /\
    indented_by_origin (flat_map line_origins rest) (body_lines out).
Proof.
  intros Htok H.
  destruct (block_text Def body [] out eq_refl H)
    as (name & rest & text & -> & Hrest & ->).
  simpl in Htok. apply andb_true_iff in Htok as [Hname Htok].
  assert (Hemits : emits (flat_map line_origins rest) text).
  { apply (for_each_emits rest); try assumption.
    apply Forall_forall. intros n _. apply transpile_node_emits. }
  rewrite app_nil_l.
  destruct (block_lines Def name text _ eq_refl
              (is_token_one_line _ Hname) Hemits) as [L B].
  rewrite B. exists name, rest.
  split; [reflexivity|split; [exact L|now apply emits_lines]].
Qed.

Lemma def_body_lines_are_flat_witness :
  exists name rest,
    [Code (py "m"); Block If [Code (py "c"); Code (py "x")];
     Block Class [Code (py "B")]; Code (py "y")] = Code name :: rest /\
    lines (unlines [py "    public void m() {"; py "    if (c) {";
                    py "    x"; py "    }"; py "public class B {"; py "}";
                    py "    y"; py "    }"]) =
      (py "    public void " ++ name ++ py "() {")
        :: body_lines
             (unlines [py "    public void m() {"; py "    if (c) {";
                       py "    x"; py "    }"; py "public class B {"; py "}";
                       py "    y"; py "    }"])
        ++ [py "    }"] /\
    indented_by_origin (flat_map line_origins rest)
      (body_lines
         (unlines [py "    public void m() {"; py "    if (c) {";
                   py "    x"; py "    }"; py "public class B {"; py "}";
                   py "    y"; py "    }"])).
Proof.
  apply (def_body_lines_are_flat
           [Code (py "m"); Block If [Code (py "c"); Code (py "x")];
            Block Class [Code (py "B")]; Code (py "y")]).
  - vm_compute. reflexivity.
  - vm_compute. reflexivity.
Defined.

(** The body line of [def hello puts end] begins with four spaces, not
    eight; and a class block nested in a def has lines that are not
    indented at all. *)
Lemma def_body_is_not_at_eight_spaces :
  transpile_node (Block Def [Code (py "hello"); Code (py "puts")]) [] =
    Ok (unlines [py "    public void hello() {"; py "    puts"; py "    }"]) /\
  ~ nested_lines_indented 8 (Block Def [Code (py "hello"); Code (py "puts")]) /\
  ~ nested_lines_indented 4
      (Block Def [Code (py "m"); Block Class [Code (py "B")]]).
Proof.
  split; [reflexivity|split].
  - intros H. specialize (H _ eq_refl). vm_compute in H.
    inversion H as [|l ls Hl Hls]. discriminate.
  - intros H. specialize (H _ eq_refl). vm_compute in H.
    inversion H as [|l ls Hl Hls]. discriminate.
Qed.

End PipelineFacts.

(** * Further properties of the three stages *)

(** ** Lexer *)

Section LexerMore.
Import Lexer.

Lemma star_app_stop p rest w b :
  p w = false -> star p (rest ++ w :: b) = star p rest.
Proof.
  intros Hw. induction rest as [|c rest IH]; simpl.
  - now rewrite Hw.
  - destruct (p c); [now rewrite IH|reflexivity].
Qed.

Lemma star_length p s : (length (star p s) <= length s)%nat.
Proof.
  induction s as [|c s IH]; simpl; [lia|].
  destruct (p c); simpl; lia.
Qed.

Lemma star_all p s : Forall (fun c => p c = true) s -> star p s = s.
Proof.
  induction 1 as [|c s Hc Hs IH]; simpl; [reflexivity|].
  now rewrite Hc, IH.
Qed.

Lemma space_not_ident w : is_space w = true -> ident_char w = false.
Proof.
  intros H. destruct (ident_char w) eqn:E; [|reflexivity].
  apply ident_char_not_space in E. congruence.
Qed.

Lemma findall_whitespace (a : str) w b :
  is_space w = true ->
  findall 0 (a ++ w :: b) = findall 0 a ++ findall 0 b.
Proof.
  intros Hw.
  induction a as [|c rest Hsp IH|c rest Hid IH|c rest Hid Hsp IH] using scan_ind.
  - rewrite app_nil_l. now rewrite findall_space.
  - rewrite <- app_comm_cons. rewrite !findall_space by assumption. exact IH.
  - rewrite <- app_comm_cons. rewrite !findall_ident by assumption.
    rewrite (star_app_stop ident_char rest w b (space_not_ident w Hw)).
    rewrite skipn_app.
    replace (length (star ident_char rest) - length rest)%nat with 0%nat
      by (pose proof (star_length ident_char rest); lia).
    rewrite skipn_O, IH. reflexivity.
  - rewrite <- app_comm_cons. rewrite !findall_single by assumption.
    now rewrite IH.
Qed.

(** Whitespace separates: the tokens of two texts with a whitespace
    character between them are the tokens of the first followed by the
    tokens of the second. *)
Theorem whitespace_separates_tokens a w b :
  is_space w = true ->
  tokenize_ruby_code (a ++ w :: b) =
  tokenize_ruby_code a ++ tokenize_ruby_code b.
Proof. apply findall_whitespace. Qed.

Lemma whitespace_separates_tokens_witness :
  tokenize_ruby_code (py "a1(" ++ 10 :: py "b") =
  tokenize_ruby_code (py "a1(") ++ tokenize_ruby_code (py "b").
Proof. apply (whitespace_separates_tokens (py "a1(") 10 (py "b")). reflexivity. Defined.

Lemma scans_stable code toks :
  scans ident_start code toks ->
  Forall (fun tok => findall 0 tok = [tok]) toks.
Proof.
  induction 1 as [|c s toks Hsp H IH|c run s toks Hc Hrun Hstop H IH
                 |c s toks Hsp Hc H IH]; try assumption; constructor;
    try assumption.
  - rewrite findall_ident by assumption.
    rewrite (star_all ident_char run Hrun), skipn_all. reflexivity.
  - rewrite findall_single by assumption. reflexivity.
Qed.

Lemma join_stable toks :
  Forall (fun tok => findall 0 tok = [tok]) toks ->
  findall 0 (join_spaces toks) = toks.
Proof.
  induction 1 as [|tok toks Htok Htoks IH]; [reflexivity|].
  destruct toks as [|tok' toks]; [exact Htok|].
  change (join_spaces (tok :: tok' :: toks))
    with (tok ++ 32 :: join_spaces (tok' :: toks)).
  rewrite findall_whitespace by reflexivity.
  now rewrite Htok, IH.
Qed.

(** A token is a fixed point of the lexer: tokenizing a token of any input
    gives that token alone. *)
Theorem tokens_are_stable code :
  Forall (fun tok => tokenize_ruby_code tok = [tok]) (tokenize_ruby_code code).
Proof. apply (scans_stable code), tokens_scan. Qed.

(** Joining the tokens of an input with single spaces and tokenizing again
    gives the same tokens. *)
Theorem tokenize_join_round_trip code :
  tokenize_ruby_code (join_spaces (tokenize_ruby_code code)) =
  tokenize_ruby_code code.
Proof. apply join_stable, (scans_stable code), tokens_scan. Qed.

(** An input has no token exactly when all its characters are
    whitespace. *)
Theorem no_tokens_iff_whitespace code :
  tokenize_ruby_code code = [] <-> forallb is_space code = true.
Proof.
  unfold tokenize_ruby_code. split.
  - intros H. pose proof (tokens_concat code) as Hc.
    unfold tokenize_ruby_code in Hc. rewrite H in Hc. simpl in Hc.
    unfold remove_whitespace in Hc.
    induction code as [|c code IH]; [reflexivity|].
    simpl in Hc |- *. destruct (is_space c) eqn:E; simpl in Hc.
    + apply IH; [|assumption].
      rewrite findall_space in H by assumption. exact H.
    + discriminate.
  - induction code as [|c code IH]; [reflexivity|].
    simpl forallb. intros H. apply andb_true_iff in H as [Hc H].
    rewrite findall_space by assumption. now apply IH.
Qed.

End LexerMore.

(** ** Parser *)

Section ParserMore.
Import Parser.

Lemma block_keyword_text k : block_keyword (keyword_text k) = Some k.
Proof. destruct k; reflexivity. Qed.

Lemma block_keyword_inv token k :
  block_keyword token = Some k -> token = keyword_text k.
Proof.
  unfold block_keyword, block_keywords, keyword_in.
  repeat (destruct (str_eqb token _) eqn:E;
          [apply str_eqb_eq in E; intros [= <-]; exact E|clear E]).
  discriminate.
Qed.

Lemma plain_cases token :
  block_keyword token = None -> str_eqb token tok_end = false ->
  plain token = true.
Proof. unfold plain. now intros -> ->. Qed.

Lemma plain_inv token :
  plain token = true ->
  block_keyword token = None /\ str_eqb token tok_end = false.
Proof.
  unfold plain. destruct (block_keyword token); [discriminate|].
  destruct (str_eqb token tok_end); [discriminate|]. now split.
Qed.

(** *** Nothing is lost while parsing *)

Lemma forest_tokens_snoc forest n :
  forest_tokens (forest ++ [n]) = forest_tokens forest ++ tokens_of n.
Proof.
  unfold forest_tokens. rewrite flat_map_app. simpl. now rewrite app_nil_r.
Qed.

Lemma parse_token_consumed token st st' :
  parse_token token st = Ok st' -> consumed st' = consumed st ++ [token].
Proof.
  unfold consumed.
  destruct (token_cases token) as [[k Hk]|[->|[Hk He]]].
  - rewrite (parse_token_open _ _ _ Hk). intros [= <-]. simpl.
    rewrite (block_keyword_inv _ _ Hk). now rewrite <- !app_assoc.
  - rewrite parse_token_end.
    destruct (stack st) as [|top [|parent rest]]; [discriminate| |];
      intros [= <-]; simpl.
    + rewrite forest_tokens_snoc. destruct top as [k body]. simpl.
      now rewrite app_nil_r, <- !app_assoc.
    + rewrite forest_tokens_snoc. destruct top as [k body]. simpl.
      repeat (rewrite <- ?app_assoc; simpl). reflexivity.
  - rewrite (parse_token_other _ _ Hk He).
    destruct (stack st) as [|top below]; intros [= <-]; simpl.
    + rewrite forest_tokens_snoc. simpl. now rewrite !app_nil_r.
    + rewrite forest_tokens_snoc. simpl.
      repeat (rewrite <- ?app_assoc; simpl). reflexivity.
Qed.

Lemma parse_loop_consumed tokens st st' :
  parse_loop tokens st = Ok st' -> consumed st' = consumed st ++ tokens.
Proof.
  revert st; induction tokens as [|t tokens IH]; intros st; simpl.
  - intros [= <-]. now rewrite app_nil_r.
  - destruct (parse_token t st) as [st1|] eqn:E; simpl; [|discriminate].
    intros H. rewrite (IH _ H), (parse_token_consumed _ _ _ E).
    now rewrite <- app_assoc.
Qed.

(** No token is lost while parsing: the Forest and the open blocks of the
    final state, written back as tokens, are the input.  So the Forest of a
    well-balanced input, written back as tokens, is the input, and what an
    unbalanced input loses is exactly the tokens of the blocks left
    open. *)
Theorem parsing_keeps_every_token tokens st :
  parse_loop tokens initial = Ok st ->
  forest_tokens (ast st) ++ stack_tokens (stack st) = tokens /\
  (well_balanced tokens = true -> forest_tokens (ast st) = tokens).
Proof.
  intros H. pose proof (parse_loop_consumed _ _ _ H) as Hc.
  unfold consumed in Hc. simpl in Hc. split; [exact Hc|].
  intros Hb. pose proof (parse_loop_depth tokens initial) as Hd.
  rewrite H in Hd. simpl in Hd. unfold well_balanced in Hb. rewrite Hd in Hb.
  destruct (stack st); [|discriminate].
  simpl in Hc. now rewrite app_nil_r in Hc.
Qed.

Lemma parsing_keeps_every_token_witness :
  forest_tokens [Code (py "x"); Block If [Code (py "c")]]
    ++ stack_tokens [(Def, [Code (py "m")])] =
  map py ["x"; "if"; "c"; "end"; "def"; "m"]%string /\
  forest_tokens [Block If [Code (py "c"); Block Do []]] =
  map py ["if"; "c"; "do"; "end"; "end"]%string.
Proof.
  split.
  - apply (parsing_keeps_every_token
             (map py ["x"; "if"; "c"; "end"; "def"; "m"]%string)
             (mk_state [(Def, [Code (py "m")])]
                       [Code (py "x"); Block If [Code (py "c")]])).
    vm_compute. reflexivity.
  - apply (parsing_keeps_every_token
             (map py ["if"; "c"; "do"; "end"; "end"]%string)
             (mk_state [] [Block If [Code (py "c"); Block Do []]])).
    + vm_compute. reflexivity.
    + vm_compute. reflexivity.
Defined.

(** *** Every Forest of plain fragments is the parse of its tokens *)

Lemma parse_body l :
  Forall (fun n => plain_fragments n = true ->
                   forall rest st,
                     parse_loop (tokens_of n ++ rest) st =
                     parse_loop rest (attach n st)) l ->
  forallb plain_fragments l = true ->
  forall rest top below a,
    parse_loop (forest_tokens l ++ rest) (mk_state (top :: below) a) =
    parse_loop rest (mk_state ((fst top, snd top ++ l) :: below) a).
Proof.
  induction 1 as [|n l Hn Hl IH]; intros Hp rest top below a.
  - simpl. rewrite app_nil_r. now destruct top.
  - simpl in Hp. apply andb_true_iff in Hp as [Hpn Hpl].
    unfold forest_tokens. simpl flat_map. rewrite <- app_assoc.
    rewrite (Hn Hpn). unfold attach, append_to_top. cbn [stack ast].
    fold (forest_tokens l).
    pose proof (IH Hpl rest (fst top, snd top ++ [n]) below a) as E.
    cbn [fst snd] in E. rewrite <- app_assoc in E. exact E.
Qed.

Lemma parse_node n :
  plain_fragments n = true ->
  forall rest st,
    parse_loop (tokens_of n ++ rest) st = parse_loop rest (attach n st).
Proof.
  induction n as [k body IH|value] using node_nested_ind; intros Hp rest st.
  - simpl in Hp. cbn [tokens_of]. rewrite <- app_comm_cons.
    cbn [parse_loop].
    rewrite (parse_token_open _ _ _ (block_keyword_text k)). cbn [bind].
    rewrite <- app_assoc. fold (forest_tokens body).
    rewrite (parse_body body IH Hp). simpl app. cbn [parse_loop].
    rewrite parse_token_end. unfold attach, append_to_top, close. simpl.
    destruct (stack st) as [|parent below]; reflexivity.
  - simpl in Hp. apply plain_inv in Hp as [Hk He].
    simpl. rewrite (parse_token_other _ _ Hk He). unfold attach, append_to_top.
    destruct (stack st); reflexivity.
Qed.

Lemma parse_forest l :
  forallb plain_fragments l = true ->
  forall rest a,
    parse_loop (forest_tokens l ++ rest) (mk_state [] a) =
    parse_loop rest (mk_state [] (a ++ l)).
Proof.
  induction l as [|n l IH]; intros Hp rest a.
  - simpl. now rewrite app_nil_r.
  - simpl in Hp. apply andb_true_iff in Hp as [Hpn Hpl].
    unfold forest_tokens. simpl flat_map. rewrite <- app_assoc.
    rewrite (parse_node n Hpn). unfold attach. simpl.
    fold (forest_tokens l). rewrite (IH Hpl). now rewrite <- app_assoc.
Qed.

(** Writing a Forest of plain fragments as tokens and parsing them gives
    the Forest back: the parser reaches every such Forest. *)
Theorem parse_forest_tokens_round_trip forest :
  forallb plain_fragments forest = true ->
  parse_tokens (forest_tokens forest) = Ok forest.
Proof.
  intros Hp. unfold parse_tokens, initial.
  rewrite <- (app_nil_r (forest_tokens forest)).
  rewrite (parse_forest forest Hp). reflexivity.
Qed.

Lemma parse_forest_tokens_round_trip_witness :
  parse_tokens
    (forest_tokens
       [Block Class [Code (py "A"); Block Else []; Block Def [Code (py "m")]];
        Code (py "x")]) =
  Ok [Block Class [Code (py "A"); Block Else []; Block Def [Code (py "m")]];
      Code (py "x")].
Proof.
  apply (parse_forest_tokens_round_trip
           [Block Class [Code (py "A"); Block Else []; Block Def [Code (py "m")]];
            Code (py "x")]).
  vm_compute. reflexivity.
Defined.

(** *** Fragments never hold a keyword *)

Lemma parse_token_plain token st st' :
  state_plain st = true -> parse_token token st = Ok st' ->
  state_plain st' = true.
Proof.
  unfold state_plain. intros Hst.
  apply andb_true_iff in Hst as [Hstack Hast].
  destruct (token_cases token) as [[k Hk]|[->|[Hk He]]].
  - rewrite (parse_token_open _ _ _ Hk). intros [= <-]. simpl.
    now rewrite Hstack, Hast.
  - rewrite parse_token_end.
    destruct (stack st) as [|top [|parent rest]]; [discriminate| |];
      intros [= <-]; simpl in *.
    + rewrite forallb_snoc, Hast. simpl.
      now rewrite andb_true_r in Hstack.
    + rewrite forallb_snoc, Hast. simpl.
      apply andb_true_iff in Hstack as [Htop Hstack].
      apply andb_true_iff in Hstack as [Hparent Hrest].
      now rewrite Htop, Hparent, Hrest.
  - rewrite (parse_token_other _ _ Hk He).
    pose proof (plain_cases _ Hk He) as Hplain.
    destruct (stack st) as [|top below]; intros [= <-]; simpl in *.
    + rewrite forallb_snoc, Hast. simpl. now rewrite Hplain.
    + rewrite forallb_snoc, Hast. simpl.
      apply andb_true_iff in Hstack as [Htop Hbelow].
      now rewrite Htop, Hbelow, Hplain.
Qed.

Lemma parse_loop_plain tokens st st' :
  state_plain st = true -> parse_loop tokens st = Ok st' ->
  state_plain st' = true.
Proof.
  revert st; induction tokens as [|t tokens IH]; intros st Hst; simpl.
  - now intros [= <-].
  - destruct (parse_token t st) as [st1|] eqn:E; simpl; [|discriminate].
    apply IH. eapply parse_token_plain; eassumption.
Qed.

(** Whatever the tokens, no fragment of the Forest holds a block keyword or
    [end]: those tokens only ever open and close blocks. *)
Theorem fragments_are_never_keywords tokens forest :
  parse_tokens tokens = Ok forest ->
  forallb plain_fragments forest = true.
Proof.
  unfold parse_tokens.
  destruct (parse_loop tokens initial) as [st|] eqn:E; simpl; [|discriminate].
  intros [= <-].
  pose proof (parse_loop_plain tokens initial st eq_refl E) as H.
  unfold state_plain in H. now apply andb_true_iff in H as [_ H].
Qed.

Lemma fragments_are_never_keywords_witness :
  forallb plain_fragments
    [Code (py "x"); Block If [Code (py "c"); Block Do []]] = true.
Proof.
  apply (fragments_are_never_keywords
           (map py ["x"; "if"; "c"; "do"; "end"; "end"; "def"; "end2"]%string)).
  vm_compute. reflexivity.
Defined.

(** *** Closed input composes *)

Lemma parse_token_frame f token stk a :
  parse_token token (mk_state stk (f ++ a)) =
  (st' <- parse_token token (mk_state stk a) ;;
   Ok (mk_state (stack st') (f ++ ast st'))).
Proof.
  destruct (token_cases token) as [[k Hk]|[->|[Hk He]]].
  - now rewrite !(parse_token_open _ _ _ Hk).
  - rewrite !parse_token_end. simpl.
    destruct stk as [|top [|parent rest]]; simpl; try reflexivity.
    now rewrite app_assoc.
  - rewrite !(parse_token_other _ _ Hk He). simpl.
    destruct stk as [|top below]; simpl; try reflexivity.
    now rewrite app_assoc.
Qed.

Lemma parse_loop_frame f tokens stk a :
  parse_loop tokens (mk_state stk (f ++ a)) =
  (st' <- parse_loop tokens (mk_state stk a) ;;
   Ok (mk_state (stack st') (f ++ ast st'))).
Proof.
  revert stk a; induction tokens as [|t tokens IH]; intros stk a;
    [reflexivity|].
  cbn [parse_loop]. rewrite parse_token_frame.
  destruct (parse_token t (mk_state stk a)) as [[stk1 a1]|]; simpl;
    [apply IH|reflexivity].
Qed.

Lemma well_balanced_closed tokens :
  well_balanced tokens = true ->
  exists forest, parse_loop tokens initial = Ok (mk_state [] forest).
Proof.
  intros Hb. pose proof (parse_loop_depth tokens initial) as Hd.
  unfold well_balanced in Hb.
  destruct (parse_loop tokens initial) as [[stk forest]|]; simpl in Hd.
  - rewrite Hd in Hb. destruct stk; [|discriminate]. now exists forest.
  - destruct Hd as [Hd _]. rewrite Hd in Hb. discriminate.
Qed.

(** After a well-balanced token sequence the parser starts afresh: the
    Forest of the sequence followed by more tokens is the Forest of the
    sequence followed by the Forest of those tokens, and an error in those
    tokens is the error of the whole. *)
Theorem parse_after_balanced_prefix a b :
  well_balanced a = true ->
  exists fa,
    parse_tokens a = Ok fa /\
    parse_tokens (a ++ b) = (fb <- parse_tokens b ;; Ok (fa ++ fb)).
Proof.
  intros Hb. destruct (well_balanced_closed a Hb) as [fa Ha].
  exists fa. unfold parse_tokens. rewrite parse_loop_app, Ha. simpl.
  split; [reflexivity|].
  rewrite <- (app_nil_r fa) at 1. rewrite parse_loop_frame. unfold initial.
  destruct (parse_loop b (mk_state [] [])); reflexivity.
Qed.

Lemma parse_after_balanced_prefix_witness :
  exists fa,
    parse_tokens (map py ["if"; "c"; "end"]%string) = Ok fa /\
    parse_tokens (map py ["if"; "c"; "end"]%string ++ map py ["x"; "end"]%string) =
    (fb <- parse_tokens (map py ["x"; "end"]%string) ;; Ok (fa ++ fb)).
Proof.
  apply (parse_after_balanced_prefix
           (map py ["if"; "c"; "end"]%string) (map py ["x"; "end"]%string)).
  vm_compute. reflexivity.
Defined.

(** *** Counting blocks *)

Lemma parse_loop_counts tokens st st' :
  parse_loop tokens st = Ok st' ->
  (count_openers tokens + length (stack st) =
   length (stack st') + count_ends tokens)%nat.
Proof.
  unfold count_openers, count_ends.
  revert st; induction tokens as [|t tokens IH]; intros st; simpl.
  - intros [= <-]. lia.
  - destruct (parse_token t st) as [st1|] eqn:E; simpl; [|discriminate].
    intros H. specialize (IH _ H).
    destruct (token_cases t) as [[k Hk]|[->|[Hk He]]].
    + rewrite (parse_token_open _ _ _ Hk) in E. injection E as <-.
      rewrite Hk. simpl in IH |- *.
      destruct (str_eqb t tok_end) eqn:He.
      * apply str_eqb_eq in He. subst t. rewrite end_not_keyword in Hk.
        discriminate.
      * lia.
    + rewrite parse_token_end in E. rewrite end_not_keyword, str_eqb_refl.
      destruct (stack st) as [|top [|parent rest]]; [discriminate| |];
        injection E as <-; simpl in IH |- *; lia.
    + rewrite (parse_token_other _ _ Hk He) in E. rewrite Hk, He.
      destruct (stack st) as [|top below]; injection E as <-;
        simpl in IH |- *; lia.
Qed.

(** When parsing succeeds, the number of block keywords in the input is the
    number of [end] tokens plus the number of blocks left open, the ones
    that the result drops. *)
Theorem openers_are_ends_plus_open_blocks tokens st :
  parse_loop tokens initial = Ok st ->
  count_openers tokens = (count_ends tokens + length (stack st))%nat.
Proof.
  intros H. pose proof (parse_loop_counts _ _ _ H) as Hc. simpl in Hc. lia.
Qed.

Lemma openers_are_ends_plus_open_blocks_witness :
  count_openers (map py ["class"; "A"; "def"; "m"; "if"; "c"; "end"]%string) =
  (count_ends (map py ["class"; "A"; "def"; "m"; "if"; "c"; "end"]%string) + 2)%nat.
Proof.
  apply (openers_are_ends_plus_open_blocks
           (map py ["class"; "A"; "def"; "m"; "if"; "c"; "end"]%string)
           (mk_state [(Def, [Code (py "m"); Block If [Code (py "c")]]);
                      (Class, [Code (py "A")])] [])).
  vm_compute. reflexivity.
Defined.

End ParserMore.

(** ** Renderer *)

Section RendererMore.
Import Renderer.

(** The rendering of two Forests one after the other is the rendering of
    the first followed by the rendering of the second; it fails when one
    of the two fails, with the first error met. *)
Theorem rendering_concatenates f1 f2 :
  transpile_to_csharp (f1 ++ f2) =
  (t1 <- transpile_to_csharp f1 ;;
   t2 <- transpile_to_csharp f2 ;;
   Ok (t1 ++ t2)).
Proof.
  unfold transpile_to_csharp. rewrite for_each_app.
  destruct (for_each transpile_node f1 []) as [t1|]; simpl; [|reflexivity].
  apply transpile_all_appends.
Qed.

(** *** Braces *)

Lemma count_char_app c a b :
  count_char c (a ++ b) = (count_char c a + count_char c b)%nat.
Proof. apply count_occ_app. Qed.

Lemma brace_free_counts v :
  brace_free v = true -> count_char 123 v = 0%nat /\ count_char 125 v = 0%nat.
Proof.
  unfold brace_free, count_char.
  induction v as [|c v IH]; simpl; [now split|].
  intros H. apply andb_true_iff in H as [Hc Hv].
  apply andb_true_iff in Hc as [H1 H2].
  apply negb_true_iff, N.eqb_neq in H1, H2.
  destruct (IH Hv) as [IH1 IH2].
  destruct (N.eq_dec c 123); [congruence|].
  destruct (N.eq_dec c 125); [congruence|]. now split.
Qed.

Ltac count_literals :=
  repeat match goal with
    | |- context [count_char ?c (py ?s)] =>
        let v := eval vm_compute in (count_char c (py s)) in
        change (count_char c (py s)) with v
    | |- context [count_char ?c nl] =>
        let v := eval vm_compute in (count_char c nl) in
        change (count_char c nl) with v
    end.

Lemma header_braces k name :
  rendered k = true -> brace_free name = true ->
  count_char 123 (header k name) = 1%nat /\
  count_char 125 (header k name) = 0%nat.
Proof.
  intros Hk Hname. destruct (brace_free_counts name Hname) as [H1 H2].
  destruct k; try discriminate; unfold header, header_line;
    rewrite !count_char_app, H1, H2; count_literals; now split.
Qed.

Lemma footer_braces k :
  rendered k = true ->
  count_char 123 (footer k) = 0%nat /\ count_char 125 (footer k) = 1%nat.
Proof. destruct k; try discriminate; intros _; now split. Qed.

Lemma for_each_braces l :
  Forall (fun n => no_brace_fragments n = true ->
                   forall text, transpile_node n [] = Ok text ->
                                count_char 123 text = count_char 125 text) l ->
  forallb no_brace_fragments l = true ->
  forall text, for_each transpile_node l [] = Ok text ->
               count_char 123 text = count_char 125 text.
Proof.
  induction 1 as [|n l Hn Hl IH]; intros Hb text.
  - now intros [= <-].
  - simpl in Hb. apply andb_true_iff in Hb as [Hbn Hbl].
    rewrite for_each_cons.
    destruct (transpile_node n []) as [t1|] eqn:E1; simpl; [|discriminate].
    rewrite (transpile_all_appends l t1).
    destruct (for_each transpile_node l []) as [t2|] eqn:E2; simpl;
      [|discriminate].
    intros [= <-]. rewrite !count_char_app.
    now rewrite (Hn Hbn t1 eq_refl), (IH Hbl t2 eq_refl).
Qed.

Lemma transpile_node_braces n :
  no_brace_fragments n = true ->
  forall text, transpile_node n [] = Ok text ->
               count_char 123 text = count_char 125 text.
Proof.
  induction n as [k body IH|value] using node_nested_ind; intros Hb text.
  - destruct (rendered k) eqn:Hk.
    + intros H.
      destruct (block_text _ _ _ _ Hk H) as (name & rest & t & -> & Hrest & ->).
      simpl in Hb. apply andb_true_iff in Hb as [Hname Hb].
      apply Forall_inv_tail in IH.
      rewrite app_nil_l, !count_char_app.
      destruct (header_braces k name Hk Hname) as [-> ->].
      destruct (footer_braces k Hk) as [-> ->].
      rewrite (for_each_braces rest IH Hb t Hrest). lia.
    + rewrite transpile_unrendered by assumption. now intros [= <-].
  - simpl in Hb. destruct (brace_free_counts value Hb) as [H1 H2].
    rewrite transpile_code, app_nil_l. intros [= <-].
    change (32 :: 32 :: 32 :: 32 :: value ++ nl) with (py "    " ++ value ++ nl).
    rewrite !count_char_app, H1, H2. count_literals. reflexivity.
Qed.

(** When no fragment holds a brace, the rendered text has as many opening
    braces as closing braces. *)
Theorem rendered_braces_balance forest out :
  forallb no_brace_fragments forest = true ->
  transpile_to_csharp forest = Ok out ->
  count_char 123 out = count_char 125 out.
Proof.
  intros Hb. apply for_each_braces; [|assumption].
  apply Forall_forall. intros n _. apply transpile_node_braces.
Qed.

Lemma rendered_braces_balance_witness :
  count_char 123
    (unlines [py "public class A {"; py "    if (c) {"; py "    x";
              py "    }"; py "}"]) =
  count_char 125
    (unlines [py "public class A {"; py "    if (c) {"; py "    x";
              py "    }"; py "}"]).
Proof.
  apply (rendered_braces_balance
           [Block Class [Code (py "A"); Block If [Code (py "c"); Code (py "x")]]]).
  - vm_compute. reflexivity.
  - vm_compute. reflexivity.
Defined.

End RendererMore.

(** ** Pipeline *)

Section PipelineMore.
Import Lexer Parser Renderer.

Lemma forest_tokens_fragments tokens : forest_tokens (map Code tokens) = tokens.
Proof.
  induction tokens as [|t tokens IH]; [reflexivity|].
  unfold forest_tokens in *. simpl. now rewrite IH.
Qed.

Lemma plain_fragments_map tokens :
  forallb plain_fragments (map Code tokens) = forallb plain tokens.
Proof.
  induction tokens as [|t tokens IH]; [reflexivity|]. simpl. now rewrite IH.
Qed.

Lemma parse_fragments tokens :
  forallb plain tokens = true -> parse_tokens tokens = Ok (map Code tokens).
Proof.
  intros Hp. rewrite <- plain_fragments_map in Hp.
  unfold parse_tokens, initial.
  rewrite <- (forest_tokens_fragments tokens) at 1.
  rewrite <- (app_nil_r (forest_tokens (map Code tokens))).
  rewrite (parse_forest _ Hp). reflexivity.
Qed.

Lemma render_fragments tokens acc :
  for_each transpile_node (map Code tokens) acc =
  Ok (acc ++ unlines (map (fun t => py "    " ++ t) tokens)).
Proof.
  revert acc; induction tokens as [|t tokens IH]; intros acc.
  - simpl. now rewrite app_nil_r.
  - simpl map. rewrite for_each_cons, transpile_code. cbn [bind].
    rewrite IH, unlines_cons. now rewrite <- !app_assoc.
Qed.

(** An input without block keywords and without [end] is rendered one
    token a line, each behind four spaces and as it is written: [true],
    [false] and [nil] are not translated. *)
Theorem text_without_blocks_is_one_token_per_line code :
  forallb plain (tokenize_ruby_code code) = true ->
  parse_tokens (tokenize_ruby_code code) = Ok (map Code (tokenize_ruby_code code)) /\
  transpile code =
    Ok (unlines (map (fun t => py "    " ++ t) (tokenize_ruby_code code))).
Proof.
  intros Hp. pose proof (parse_fragments _ Hp) as H. split; [exact H|].
  unfold transpile. rewrite H. cbn [bind]. unfold transpile_to_csharp.
  now rewrite render_fragments.
Qed.

Lemma text_without_blocks_is_one_token_per_line_witness :
  parse_tokens (tokenize_ruby_code (py "x = nil")) =
    Ok (map Code (tokenize_ruby_code (py "x = nil"))) /\
  transpile (py "x = nil") =
    Ok (unlines (map (fun t => py "    " ++ t) (tokenize_ruby_code (py "x = nil")))).
Proof.
  apply (text_without_blocks_is_one_token_per_line (py "x = nil")).
  vm_compute. reflexivity.
Defined.

(** The output depends on the tokens only: an input and its tokens joined
    by single spaces are transpiled alike. *)
Theorem layout_does_not_matter code :
  transpile (join_spaces (tokenize_ruby_code code)) = transpile code.
Proof.
  unfold transpile.
  replace (tokenize_ruby_code (join_spaces (tokenize_ruby_code code)))
    with (tokenize_ruby_code code); [reflexivity|].
  symmetry. apply join_stable, (scans_stable code), tokens_scan.
Qed.

(** After a text that is well balanced and transpiles, and a whitespace
    character, the pipeline starts afresh: the output is the output of that
    text followed by the output of what comes after, and an error in what
    comes after is the error of the whole. *)
Theorem transpile_after_closed_text a w b ta :
  is_space w = true ->
  well_balanced (tokenize_ruby_code a) = true ->
  transpile a = Ok ta ->
  transpile (a ++ w :: b) = (tb <- transpile b ;; Ok (ta ++ tb)).
Proof.
  intros Hw Hb Ha. unfold transpile in *.
  unfold tokenize_ruby_code in *. rewrite (findall_whitespace a w b Hw).
  destruct (well_balanced_closed _ Hb) as [fa Hfa].
  unfold parse_tokens in *. rewrite parse_loop_app, Hfa in *.
  cbn [bind ast] in *.
  rewrite <- (app_nil_r fa) at 1. rewrite parse_loop_frame. unfold initial.
  destruct (parse_loop (findall 0 b) (mk_state [] [])) as [[stk fb]|];
    cbn [bind ast stack]; [|reflexivity].
  unfold transpile_to_csharp in *. rewrite for_each_app, Ha. cbn [bind].
  apply transpile_all_appends.
Qed.

Lemma transpile_after_closed_text_witness :
  transpile (py "if c x end" ++ 10 :: py "y") =
  (tb <- transpile (py "y") ;;
   Ok (unlines [py "    if (c) {"; py "    x"; py "    }"] ++ tb)).
Proof.
  apply (transpile_after_closed_text (py "if c x end") 10 (py "y")).
  - reflexivity.
  - vm_compute. reflexivity.
  - vm_compute. reflexivity.
Defined.

(** *** Inputs that are sure to transpile *)

Lemma open_ok_snoc b n :
  open_ok b = true -> renderable n = true ->
  open_ok (fst b, snd b ++ [n]) = true.
Proof.
  unfold open_ok. simpl. destruct (rendered (fst b)); [|reflexivity].
  destruct (snd b) as [|[k body|v] rest]; simpl; try discriminate.
  intros H Hn. rewrite forallb_snoc, H, Hn. reflexivity.
Qed.

Lemma parse_token_named expect t rest st st' :
  named_state expect st ->
  names_follow expect (t :: rest) = true ->
  parse_token t st = Ok st' ->
  exists expect', named_state expect' st' /\ names_follow expect' rest = true.
Proof.
  intros [Hast Hstack] Hn Hstep. destruct expect; simpl in Hn.
  - apply andb_true_iff in Hn as [Hp Hn].
    apply plain_inv in Hp as [Hk He].
    rewrite (parse_token_other _ _ Hk He) in Hstep.
    destruct (stack st) as [|top below]; [contradiction|].
    destruct Hstack as (Hr & Hbody & Hbelow). injection Hstep as <-.
    exists false. split; [|assumption]. split; [assumption|].
    simpl. rewrite Hbelow, Hbody. unfold open_ok. simpl. now rewrite Hr.
  - destruct (token_cases t) as [[k Hk]|[->|[Hk He]]].
    + rewrite Hk in Hn. rewrite (parse_token_open _ _ _ Hk) in Hstep.
      injection Hstep as <-. exists (rendered k). split; [|assumption].
      split; [assumption|]. simpl. destruct (rendered k) eqn:Hr.
      * now repeat split.
      * simpl. unfold open_ok at 1. simpl. now rewrite Hr.
    + rewrite end_not_keyword in Hn. rewrite parse_token_end in Hstep.
      exists false. split; [|assumption].
      destruct (stack st) as [|top [|parent below]]; [discriminate| |];
        injection Hstep as <-; simpl in Hstack;
        apply andb_true_iff in Hstack as [Htop Hstack].
      * split; [|reflexivity]. simpl. rewrite forallb_snoc, Hast. exact Htop.
      * apply andb_true_iff in Hstack as [Hparent Hbelow].
        split; [assumption|]. simpl.
        rewrite (open_ok_snoc parent (close top) Hparent Htop). exact Hbelow.
    + rewrite Hk in Hn. rewrite (parse_token_other _ _ Hk He) in Hstep.
      exists false. split; [|assumption].
      destruct (stack st) as [|top below]; injection Hstep as <-.
      * split; [|reflexivity]. simpl. now rewrite forallb_snoc, Hast.
      * simpl in Hstack. apply andb_true_iff in Hstack as [Htop Hbelow].
        split; [assumption|]. simpl.
        rewrite (open_ok_snoc top (Code t) Htop eq_refl). exact Hbelow.
Qed.

Lemma parse_loop_named tokens expect st st' :
  named_state expect st ->
  names_follow expect tokens = true ->
  parse_loop tokens st = Ok st' ->
  forallb renderable (ast st') = true.
Proof.
  revert expect st; induction tokens as [|t tokens IH]; intros expect st Hst Hn.
  - intros [= <-]. apply Hst.
  - cbn [parse_loop].
    destruct (parse_token t st) as [st1|] eqn:E; cbn [bind]; [|discriminate].
    destruct (parse_token_named _ _ _ _ _ Hst Hn E) as (expect' & Hst1 & Hn1).
    now apply (IH expect' st1).
Qed.

(** An input in which no [end] is unmatched and every class, def, if and
    while keyword is directly followed by a token that is neither a block
    keyword nor [end] parses to a Forest in which every such block that the
    renderer reaches has a body that begins with a fragment; so the
    pipeline raises neither [IndexError] nor [KeyError] on it. *)
Theorem named_blocks_give_a_renderable_forest code :
  unmatched_end (tokenize_ruby_code code) = false ->
  names_follow false (tokenize_ruby_code code) = true ->
  exists forest,
    parse_tokens (tokenize_ruby_code code) = Ok forest /\
    forallb renderable forest = true /\
    transpile code <> Raise IndexError /\
    transpile code <> Raise KeyError.
Proof.
  intros Hu Hn. apply parse_loop_ok_iff in Hu as [st Hst].
  assert (Hr : forallb renderable (ast st) = true).
  { apply (parse_loop_named (tokenize_ruby_code code) false initial st);
      try assumption.
    now split. }
  exists (ast st). unfold transpile, parse_tokens. rewrite Hst. cbn [bind].
  split; [reflexivity|]. split; [exact Hr|].
  apply transpile_renderable in Hr as [out ->]. split; discriminate.
Qed.

Lemma named_blocks_give_a_renderable_forest_witness :
  exists forest,
    parse_tokens
      (tokenize_ruby_code (py "class A def m if c x end else y end end end z")) =
      Ok forest /\
    forallb renderable forest = true /\
    transpile (py "class A def m if c x end else y end end end z")
      <> Raise IndexError /\
    transpile (py "class A def m if c x end else y end end end z")
      <> Raise KeyError.
Proof.
  apply (named_blocks_give_a_renderable_forest
           (py "class A def m if c x end else y end end end z")).
  - vm_compute. reflexivity.
  - vm_compute. reflexivity.
Defined.

End PipelineMore.
